(** * Agentic search service: shallow embedding and verification

    The development follows [src/services/agentic_search_service.py]:
    the de-duplication pass [_deduplicate_contacts] and the controller
    loop [run_agentic_search] with its three planner calls and the
    search executor [_execute_apollo_search].

    Python dictionaries with a fixed set of keys are records, the [set]s
    of strings are [gset string], the external services (Claude and
    Apollo) are functions over an abstract world state, and every call
    to them is recorded in a trace. *)

From Equations Require Import Equations.
From stdpp Require Import gmap strings list.
From Stdlib Require Import ZArith QArith Lia.

Set Warnings "-clear-no-such-hyp".

Open Scope string_scope.
Open Scope list_scope.
Open Scope Z_scope.

(** ** Data model *)

(** [scrapers/schemas.py], class [Contact], after [model_dump()].  The
    service reads only [email], [linkedin_url], [id], [company] (and
    [title] when it builds a prompt); the fields kept here are the ones
    the service can observe, the others travel with the record unread. *)
Record contact := {
  id : option string;
  name : string;
  title : option string;
  company : option string;
  email : option string;
  linkedin_url : option string;
  phone : option string;
  tags : list string;
  source : string
}.

#[global] Instance contact_eq_dec : EqDecision contact.
Proof. solve_decision. Defined.

(** Python truthiness of an [Optional[str]]: [None] and the empty string
    are falsy. *)
Definition truthy (o : option string) : bool :=
  match o with
  | Some s => bool_decide (s ≠ "")
  | None => false
  end.

(** ** [_deduplicate_contacts] *)

Definition placeholder_emails : gset string :=
  {[ "email_not_unlocked@domain.com";
     "email_not_available@domain.com";
     "noemail@domain.com" ]}.

(** The three [seen_*] sets of the function. *)
Record seen := {
  seen_emails : gset string;
  seen_linkedin : gset string;
  seen_ids : gset string
}.

Definition seen_empty : seen :=
  {| seen_emails := ∅; seen_linkedin := ∅; seen_ids := ∅ |}.

(** [email = contact.get("email")] followed by
    [if email in placeholder_emails: email = None]. *)
Definition dedup_email (c : contact) : option string :=
  match email c with
  | Some e => if bool_decide (e ∈ placeholder_emails) then None else Some e
  | None => None
  end.

(** [k and k in s]. *)
Definition seen_in (k : option string) (s : gset string) : bool :=
  match k with
  | Some v => truthy k && bool_decide (v ∈ s)
  | None => false
  end.

(** The [if / elif / elif] chain that sets [is_duplicate]. *)
Definition is_duplicate (s : seen) (c : contact) : bool :=
  if seen_in (dedup_email c) (seen_emails s) then true
  else if seen_in (linkedin_url c) (seen_linkedin s) then true
  else if seen_in (id c) (seen_ids s) then true
  else false.

(** [if k: s.add(k)]. *)
Definition add_if (k : option string) (s : gset string) : gset string :=
  match k with
  | Some v => if truthy k then {[ v ]} ∪ s else s
  | None => s
  end.

Definition add_seen (s : seen) (c : contact) : seen :=
  {| seen_emails := add_if (dedup_email c) (seen_emails s);
     seen_linkedin := add_if (linkedin_url c) (seen_linkedin s);
     seen_ids := add_if (id c) (seen_ids s) |}.

(** The [for contact in contacts] loop, with the mutable locals
    ([seen_*] and [unique]) passed as accumulators. *)
Fixpoint dedup_loop (s : seen) (unique : list contact)
    (contacts : list contact) : list contact :=
  match contacts with
  | [] => unique
  | c :: rest =>
      if is_duplicate s c then dedup_loop s unique rest
      else dedup_loop (add_seen s c) (unique ++ [c]) rest
  end.

Definition _deduplicate_contacts (contacts : list contact) : list contact :=
  dedup_loop seen_empty [] contacts.

(** The seen sets after the loop. *)
Fixpoint seen_after (s : seen) (contacts : list contact) : seen :=
  match contacts with
  | [] => s
  | c :: rest =>
      if is_duplicate s c then seen_after s rest
      else seen_after (add_seen s c) rest
  end.

(** *** Identity tiers

    The function compares three fields independently.  [tier] names
    them, so that the lemmas below are stated once. *)
Inductive tier := TEmail | TLinkedin | TId.

Definition key_of (t : tier) (c : contact) : option string :=
  match t with
  | TEmail => dedup_email c
  | TLinkedin => linkedin_url c
  | TId => id c
  end.

Definition seen_at (t : tier) (s : seen) : gset string :=
  match t with
  | TEmail => seen_emails s
  | TLinkedin => seen_linkedin s
  | TId => seen_ids s
  end.

(** [a] carries a usable key of tier [t], and [b] has the same one. *)
Definition shares (t : tier) (a b : contact) : Prop :=
  truthy (key_of t a) = true ∧ key_of t a = key_of t b.

Definition shares_any (a b : contact) : Prop := ∃ t, shares t a b.

(** The IdentityKey of the specification, in its words: the
    non-placeholder email, else the profile URL, else the provider's id,
    else no stable identity. *)
Inductive identity_key :=
| KEmail (e : string)
| KProfile (u : string)
| KProvider (i : string)
| KNone.

#[global] Instance identity_key_eq_dec : EqDecision identity_key.
Proof. solve_decision. Defined.

Definition tier_key (wrap : string → identity_key) (k : option string)
    (otherwise : identity_key) : identity_key :=
  match k with
  | Some v => if truthy k then wrap v else otherwise
  | None => otherwise
  end.

Definition identity_key_of (c : contact) : identity_key :=
  tier_key KEmail (dedup_email c)
    (tier_key KProfile (linkedin_url c)
       (tier_key KProvider (id c) KNone)).

(** The email of [c] is one of Apollo's placeholders. *)
Definition placeholder_email (c : contact) : Prop :=
  ∃ e, email c = Some e ∧ e ∈ placeholder_emails.

(** ** The controller: data *)

(** One search query: the dictionary the planner returns, read through
    [.get] by [_execute_apollo_search]. *)
Record QueryParams := {
  titles : option (list string);
  keywords : option (list string);
  person_seniorities : option (list string);
  organization_num_employees_ranges : option (list string);
  reasoning : option string
}.

#[global] Instance QueryParams_eq_dec : EqDecision QueryParams.
Proof. solve_decision. Defined.

(** One element of [search_history]; the fields are the keys of the
    dictionary appended in the loop. *)
Record HistoryEntry := {
  h_iteration : Z;
  h_query_params : QueryParams;
  h_results_count : nat;
  h_companies_found : nat
}.

(** The ["stats"] dictionary and the dictionary the function returns. *)
Record Stats := {
  total_contacts : nat;
  total_companies : nat;
  queries_executed : nat;
  avg_results_per_query : Q
}.

Record SearchResult := {
  res_contacts : list contact;
  res_companies : list string;
  res_search_history : list HistoryEntry;
  res_iterations : Z;
  res_stats : Stats
}.

(** The arguments of [run_agentic_search]. *)
Record Args := {
  user_query : string;
  product_description : string;
  max_iterations : Z;
  min_results : Z;
  max_results_per_query : Z
}.

(** ** The external services

    What the three prompts are built from. *)
Inductive prompt :=
| PromptGenerate (user_query product_description : string)
| PromptExpand (user_query product_description : string)
    (sample_contacts : list contact) (search_history : list HistoryEntry)
| PromptRefine (user_query product_description : string)
    (failed_query : QueryParams) (search_history : list HistoryEntry).

Definition exn := string.

(** [messages_create] is [self.claude.messages.create(...)] followed by
    [response.content[0].text]; [json_loads] is [json.loads] read at the
    type the callers assume, [None] standing for [JSONDecodeError] and
    [Some l] for a text that is a JSON list of query dictionaries (the
    source does not check the shape of what it parses: an answer of
    another shape is not a run of this model);
    [search_people] is [self.apollo.search_people(...)] followed by the
    [model_dump()] of each contact.  The services own a state [W] and may
    raise. *)
Record services (W : Type) := {
  messages_create : W → prompt → W * (exn + string);
  json_loads : string → option (list QueryParams);
  search_people : W → QueryParams → Z → W * (exn + list contact)
}.
Arguments messages_create {W}.
Arguments json_loads {W}.
Arguments search_people {W}.

(** Every call to a service is logged. *)
Inductive call :=
| CallClaude (p : prompt)
| CallApollo (query_params : QueryParams) (per_page : Z).

Record env (W : Type) := {
  world : W;
  calls : list call
}.
Arguments world {W}.
Arguments calls {W}.

(** The locals of [run_agentic_search] while the loop runs;
    [next_index] is the position of the list iterator in
    [search_queries], which the loop body extends in place. *)
Record loop_state (W : Type) := {
  st_env : env W;
  search_queries : list QueryParams;
  next_index : nat;
  all_contacts : list contact;
  all_companies : gset string;
  search_history : list HistoryEntry;
  iteration : Z
}.
Arguments st_env {W}.
Arguments search_queries {W}.
Arguments next_index {W}.
Arguments all_contacts {W}.
Arguments all_companies {W}.
Arguments search_history {W}.
Arguments iteration {W}.

Definition fallback_query : QueryParams :=
  {| titles := Some ["CEO"; "CTO"; "VP"];
     keywords := Some [];
     person_seniorities := Some ["c_suite"; "vp"];
     organization_num_employees_ranges := Some [];
     reasoning := Some "Fallback broad search" |}.

(** [list(set([c.get("company") for c in contacts if c.get("company")]))];
    the order of a Python set is not specified, [elements] fixes one. *)
Definition companies_of (contacts : list contact) : list string :=
  elements (list_to_set (C := gset string)
    (omap (λ c, if truthy (company c) then company c else None) contacts)).

Section controller.
Context {W : Type} (sv : services W).

Definition claude_call (e : env W) (p : prompt) : env W * (exn + string) :=
  let '(w, r) := messages_create sv (world e) p in
  ({| world := w; calls := calls e ++ [CallClaude p] |}, r).

Definition apollo_call (e : env W) (query_params : QueryParams) (per_page : Z)
    : env W * (exn + list contact) :=
  let '(w, r) := search_people sv (world e) query_params per_page in
  ({| world := w; calls := calls e ++ [CallApollo query_params per_page] |}, r).

(** The API call is outside the [try]: its exception leaves the
    function.  Only a parse failure is caught. *)
Definition _generate_search_queries (e : env W)
    (user_query product_description : string)
    : env W * (exn + list QueryParams) :=
  match claude_call e (PromptGenerate user_query product_description) with
  | (e1, inl ex) => (e1, inl ex)
  | (e1, inr text) =>
      match json_loads sv text with
      | Some queries => (e1, inr queries)
      | None => (e1, inr [fallback_query])
      end
  end.

(** [query_params] is a dictionary here, so the four [.get] calls
    inside the [try] cannot raise and the provider is always reached. *)
Definition _execute_apollo_search (e : env W) (query_params : QueryParams)
    (max_results : Z) : env W * (list contact * list string) :=
  match apollo_call e query_params max_results with
  | (e1, inr contacts) => (e1, (contacts, companies_of contacts))
  | (e1, inl _) => (e1, ([], []))
  end.

Definition _learn_and_expand (e : env W)
    (user_query product_description : string)
    (successful_contacts : list contact)
    (search_history : list HistoryEntry) : env W * list QueryParams :=
  match claude_call e (PromptExpand user_query product_description
                         (take 5 successful_contacts) search_history) with
  | (e1, inr text) =>
      match json_loads sv text with
      | Some queries => (e1, queries)
      | None => (e1, [])
      end
  | (e1, inl _) => (e1, [])
  end.

Definition _refine_failed_search (e : env W) (failed_query : QueryParams)
    (search_history : list HistoryEntry)
    (user_query product_description : string) : env W * list QueryParams :=
  match claude_call e (PromptRefine user_query product_description
                         failed_query search_history) with
  | (e1, inr text) =>
      match json_loads sv text with
      | Some queries => (e1, queries)
      | None => (e1, [])
      end
  | (e1, inl _) => (e1, [])
  end.

Context (a : Args).

(** The body of the [for] loop after the [break] test, for the query
    at the iterator's position. *)
Definition loop_body (st : loop_state W) (query_params : QueryParams)
    : loop_state W :=
  let iteration' := iteration st + 1 in
  let '(e1, (contacts, companies)) :=
    _execute_apollo_search (st_env st) query_params (max_results_per_query a) in
  let history' :=
    search_history st ++
      [ {| h_iteration := iteration';
           h_query_params := query_params;
           h_results_count := length contacts;
           h_companies_found := length companies |} ] in
  match contacts with
  | _ :: _ =>
      let all_contacts' := all_contacts st ++ contacts in
      let all_companies' := all_companies st ∪ list_to_set companies in
      if bool_decide (Z.of_nat (length all_contacts') < min_results a)
         && bool_decide (iteration' < max_iterations a)
      then
        let '(e2, expansion_queries) :=
          _learn_and_expand e1 (user_query a) (product_description a)
            contacts history' in
        {| st_env := e2;
           search_queries := search_queries st ++ expansion_queries;
           next_index := S (next_index st);
           all_contacts := all_contacts';
           all_companies := all_companies';
           search_history := history';
           iteration := iteration' |}
      else
        {| st_env := e1;
           search_queries := search_queries st;
           next_index := S (next_index st);
           all_contacts := all_contacts';
           all_companies := all_companies';
           search_history := history';
           iteration := iteration' |}
  | [] =>
      if bool_decide (iteration' < max_iterations a)
      then
        let '(e2, refined_queries) :=
          _refine_failed_search e1 query_params history'
            (user_query a) (product_description a) in
        {| st_env := e2;
           search_queries := search_queries st ++ refined_queries;
           next_index := S (next_index st);
           all_contacts := all_contacts st;
           all_companies := all_companies st;
           search_history := history';
           iteration := iteration' |}
      else
        {| st_env := e1;
           search_queries := search_queries st;
           next_index := S (next_index st);
           all_contacts := all_contacts st;
           all_companies := all_companies st;
           search_history := history';
           iteration := iteration' |}
  end.

(** One turn of [for query_params in search_queries]: [None] when the
    iterator is exhausted or the [break] is taken. *)
Definition loop_step (st : loop_state W) : option (loop_state W) :=
  match search_queries st !! next_index st with
  | None => None
  | Some query_params =>
      if bool_decide (min_results a ≤ Z.of_nat (length (all_contacts st)))
      then None
      else Some (loop_body st query_params)
  end.

(** What decreases at each turn: the rounds left in which the queue
    may still grow, then the queries left in the queue. *)
Definition loop_measure (st : loop_state W) : nat * nat :=
  (Z.to_nat (max_iterations a - 1 - iteration st),
   (length (search_queries st) - next_index st)%nat).

Equations? run_loop (st : loop_state W) : loop_state W
  by wf (loop_measure st) (lexprod nat nat lt lt) :=
  run_loop st with Equations.Prop.Logic.inspect (loop_step st) := {
    | exist _ (Some st') Hstep => run_loop st'
    | exist _ None _ => st }.
Proof.
  unfold loop_step in Hstep.
  destruct (search_queries st !! next_index st) as [q|] eqn:Hq; [|done].
  apply lookup_lt_Some in Hq.
  case_bool_decide; [done|]. injection Hstep as <-.
  unfold loop_measure, loop_body.
  destruct (_execute_apollo_search _ _ _) as [e1 [contacts companies]].
  destruct (decide (iteration st + 1 < max_iterations a)) as [Hlt|Hge].
  - assert (Z.to_nat (max_iterations a - 1 - (iteration st + 1)) <
            Z.to_nat (max_iterations a - 1 - iteration st))%nat by lia.
    destruct contacts; repeat case_match; simpl; by left.
  - rewrite (bool_decide_eq_false_2 _ Hge), andb_false_r.
    assert (Z.to_nat (max_iterations a - 1 - (iteration st + 1)) =
            Z.to_nat (max_iterations a - 1 - iteration st)) as Heq by lia.
    destruct contacts; simpl; rewrite Heq; right; lia.
Defined.

(** The state after [n] more turns of the loop, when there are that
    many. *)
Fixpoint rounds (n : nat) (st : loop_state W) : option (loop_state W) :=
  match n with
  | O => Some st
  | S n' =>
      match loop_step st with
      | Some st' => rounds n' st'
      | None => None
      end
  end.

Definition initial_state (e : env W) (queries : list QueryParams)
    : loop_state W :=
  {| st_env := e;
     search_queries := queries;
     next_index := 0;
     all_contacts := [];
     all_companies := ∅;
     search_history := [];
     iteration := 0 |}.

(** The dictionary built after the loop; [avg_results_per_query] is
    the exact quotient, which the source rounds to a float. *)
Definition final_result (st : loop_state W) : SearchResult :=
  let unique_contacts := _deduplicate_contacts (all_contacts st) in
  {| res_contacts := unique_contacts;
     res_companies := elements (all_companies st);
     res_search_history := search_history st;
     res_iterations := iteration st;
     res_stats :=
       {| total_contacts := length unique_contacts;
          total_companies := size (all_companies st);
          queries_executed := length (search_history st);
          avg_results_per_query :=
            match search_history st with
            | [] => 0%Q
            | _ :: _ =>
                Qmake (Z.of_nat (length (all_contacts st)))
                      (Pos.of_nat (length (search_history st)))
            end |} |}.

Definition run_agentic_search (e : env W) : env W * (exn + SearchResult) :=
  match _generate_search_queries e (user_query a) (product_description a) with
  | (e1, inl ex) => (e1, inl ex)
  | (e1, inr queries) =>
      let st := run_loop (initial_state e1 queries) in
      (st_env st, inr (final_result st))
  end.

(** The specs executed so far, in order, and the ones still pending. *)
Definition executed (st : loop_state W) : list QueryParams :=
  h_query_params <$> search_history st.

Definition pending (st : loop_state W) : list QueryParams :=
  drop (next_index st) (search_queries st).

(** What the loop maintains from [initial_state] on: the executed
    specs are the queue up to the iterator, and [iteration] counts
    the history. *)
Definition loop_invariant (st : loop_state W) : Prop :=
  executed st = take (next_index st) (search_queries st) ∧
  (next_index st ≤ length (search_queries st))%nat ∧
  length (search_history st) = next_index st ∧
  iteration st = Z.of_nat (next_index st).
End controller.

(** ** Scripted services

    Concrete services used to run the controller on explicit inputs:
    the planner answers each kind of prompt with a fixed list of
    queries, the provider answers every search with [found]. *)
Definition scripted (seed expansion refined : list QueryParams)
    (found : exn + list contact) : services unit :=
  {| messages_create := λ w p,
       (w, inr match p with
               | PromptGenerate _ _ => "seed"
               | PromptExpand _ _ _ _ => "expand"
               | PromptRefine _ _ _ _ => "refine"
               end);
     json_loads := λ text,
       if decide (text = "seed") then Some seed
       else if decide (text = "expand") then Some expansion
       else if decide (text = "refine") then Some refined
       else None;
     search_people := λ w _ _, (w, found) |}.

Definition query_titled (t : string) : QueryParams :=
  {| titles := Some [t];
     keywords := None;
     person_seniorities := None;
     organization_num_employees_ranges := None;
     reasoning := None |}.

Definition env0 : env unit := {| world := (); calls := [] |}.

(** The default arguments of [run_agentic_search]. *)
Definition default_args (user_query : string) : Args :=
  {| user_query := user_query;
     product_description := "";
     max_iterations := 3;
     min_results := 10;
     max_results_per_query := 25 |}.

(** A contact with the given id, email and profile URL, for explicit
    inputs. *)
Definition sample_contact (i e l : option string) : contact :=
  {| id := i;
     name := "Sample Lead";
     title := None;
     company := None;
     email := e;
     linkedin_url := l;
     phone := None;
     tags := [];
     source := "apollo.io" |}.

#[global] Instance shares_dec t a b : Decision (shares t a b).
Proof. unfold shares. apply _. Defined.

#[global] Instance shares_any_dec a b : Decision (shares_any a b).
Proof.
  refine (cast_if (decide (shares TEmail a b ∨ shares TLinkedin a b ∨ shares TId a b)));
    unfold shares_any.
  - destruct o as [?|[?|?]]; eauto.
  - intros [[] ?]; tauto.
Defined.

(** What the function returns when the loop never runs. *)
Definition empty_result : SearchResult :=
  {| res_contacts := [];
     res_companies := [];
     res_search_history := [];
     res_iterations := 0;
     res_stats :=
       {| total_contacts := 0;
          total_companies := 0;
          queries_executed := 0;
          avg_results_per_query := 0%Q |} |}.

Definition args_with (max_iterations min_results : Z) : Args :=
  {| user_query := "find leads";
     product_description := "";
     max_iterations := max_iterations;
     min_results := min_results;
     max_results_per_query := 25 |}.

(** ** Further definitions

    A key as the de-duplication uses it: [None] unless it is truthy. *)
Definition usable (k : option string) : option string :=
  if truthy k then k else None.

(** The record with every field the de-duplication ignores (a
    placeholder email, an empty string) replaced by [None]. *)
Definition forget_unusable (c : contact) : contact :=
  {| id := usable (id c);
     name := name c;
     title := title c;
     company := company c;
     email := usable (dedup_email c);
     linkedin_url := usable (linkedin_url c);
     phone := phone c;
     tags := tags c;
     source := source c |}.

(** The provider calls and the planner calls of a trace, in order. *)
Definition apollo_calls (cs : list call) : list (QueryParams * Z) :=
  omap (λ c, match c with
             | CallApollo q n => Some (q, n)
             | CallClaude _ => None
             end) cs.

Definition claude_calls (cs : list call) : list prompt :=
  omap (λ c, match c with
             | CallClaude p => Some p
             | CallApollo _ _ => None
             end) cs.

(** The sum of the [results_count] entries of a history. *)
Definition results_total (h : list HistoryEntry) : nat :=
  sum_list (h_results_count <$> h).

(** What every state reached from [initial_state e1 seed] satisfies,
    beside [loop_invariant]: the trace, the numbering of the history,
    the contact counts and the company set. *)
Definition bookkeeping_invariant {W : Type} (a : Args) (e1 : env W)
    (st : loop_state W) : Prop :=
  (∃ added,
     calls (st_env st) = calls e1 ++ added ∧
     apollo_calls added
       = (λ q, (q, max_results_per_query a)) <$> executed st ∧
     (length (claude_calls added) ≤ next_index st)%nat ∧
     Z.of_nat (length (claude_calls added)) ≤ Z.max 0 (max_iterations a - 1)) ∧
  h_iteration <$> search_history st = Z.of_nat <$> seq 1 (next_index st) ∧
  results_total (search_history st) = length (all_contacts st) ∧
  (∀ k, (k < length (search_history st))%nat →
        Z.of_nat (results_total (take k (search_history st))) < min_results a) ∧
  (∀ x, x ∈ all_companies st ↔
        x ≠ "" ∧ ∃ c, c ∈ all_contacts st ∧ company c = Some x).

(** *** The caller, [crm_integration/chat_api.py]

    The arguments the chat endpoint computes from [message.max_contacts]
    before it calls [run_agentic_search]; [//] is floor division. *)
Definition chat_search_args (message : string)
    (message_product_description : option string) (message_max_contacts : Z)
    : Args :=
  let max_contacts := Z.min message_max_contacts 100 in
  let min_results := Z.min (max_contacts / 2) 10 in
  let max_results_per_query := Z.min max_contacts 25 in
  {| user_query := message;
     product_description :=
       (if truthy message_product_description
        then default "" message_product_description else "");
     max_iterations := 3;
     min_results := min_results;
     max_results_per_query := max_results_per_query |}.

(** *** The request of [ApolloClient.search_people],
    [scrapers/apollo_scraper.py]

    The values a payload holds, and the payload as a dictionary. *)
Inductive pyval :=
| PyNone
| PyInt (n : Z)
| PyStr (s : string)
| PyList (l : list string).

(** Truthiness of an [Optional[List[str]]]. *)
Definition truthy_list (o : option (list string)) : bool :=
  match o with
  | Some (_ :: _) => true
  | Some [] | None => false
  end.

Definition py_list (o : option (list string)) : pyval :=
  match o with
  | Some l => PyList l
  | None => PyNone
  end.

(** [if cond: payload[k] = v]. *)
Definition set_if (cond : bool) (k : string) (v : pyval)
    (payload : gmap string pyval) : gmap string pyval :=
  if cond then <[k := v]> payload else payload.

(** The payload [search_people] posts: the two paging entries, one
    entry per truthy filter, then [payload.update(kwargs)]. *)
Definition search_people_payload (query : option string)
    (titles locations seniorities company_names industries employee_ranges
       : option (list string))
    (page per_page : Z) (kwargs : gmap string pyval) : gmap string pyval :=
  let payload := <["per_page" := PyInt (Z.min per_page 100)]>
                   (<["page" := PyInt page]> ∅) in
  let payload := set_if (truthy query) "q_keywords"
                   (PyStr (default "" query)) payload in
  let payload := set_if (truthy_list titles) "person_titles"
                   (py_list titles) payload in
  let payload := set_if (truthy_list locations) "person_locations"
                   (py_list locations) payload in
  let payload := set_if (truthy_list seniorities) "person_seniorities"
                   (py_list seniorities) payload in
  let payload := set_if (truthy_list company_names) "q_organization_name"
                   (match company_names with
                    | Some [only] => PyStr only
                    | _ => PyNone
                    end) payload in
  let payload := set_if (truthy_list industries)
                   "organization_industry_keywords" (py_list industries)
                   payload in
  let payload := set_if (truthy_list employee_ranges)
                   "organization_num_employees_ranges"
                   (py_list employee_ranges) payload in
  kwargs ∪ payload.

(** The call in [_execute_apollo_search]: [titles] and [per_page] are
    parameters of [search_people], the three other keywords arrive in
    its [**kwargs]. *)
Definition agentic_search_kwargs (query_params : QueryParams)
    : gmap string pyval :=
  <["keywords" := py_list (keywords query_params)]>
    (<["person_seniorities" := py_list (person_seniorities query_params)]>
       (<["organization_num_employees_ranges" :=
            py_list (organization_num_employees_ranges query_params)]> ∅)).

Definition agentic_search_payload (query_params : QueryParams)
    (max_results : Z) : gmap string pyval :=
  search_people_payload None (titles query_params) None None None None None
    1 max_results (agentic_search_kwargs query_params).

(** ** Properties of [_deduplicate_contacts] *)

Lemma truthy_Some v : truthy (Some v) = true ↔ v ≠ "".
Proof. simpl. by rewrite bool_decide_eq_true. Qed.

Lemma truthy_inv k : truthy k = true → ∃ v, k = Some v ∧ v ≠ "".
Proof.
  destruct k as [v|]; [|done]. rewrite truthy_Some. eauto.
Qed.

Lemma seen_in_iff k s :
  seen_in k s = true ↔ ∃ v, k = Some v ∧ v ≠ "" ∧ v ∈ s.
Proof.
  destruct k as [v|]; simpl.
  - rewrite andb_true_iff, !bool_decide_eq_true. naive_solver.
  - naive_solver.
Qed.

Lemma elem_of_add_if k s v :
  v ∈ add_if k s ↔ (k = Some v ∧ v ≠ "") ∨ v ∈ s.
Proof.
  destruct k as [w|]; simpl; [|naive_solver].
  case_bool_decide; set_solver.
Qed.

Lemma is_duplicate_iff s c :
  is_duplicate s c = true ↔
  ∃ t v, key_of t c = Some v ∧ v ≠ "" ∧ v ∈ seen_at t s.
Proof.
  unfold is_duplicate. split.
  - destruct (seen_in (dedup_email c) _) eqn:He.
    { apply seen_in_iff in He as (v & ? & ? & ?). by exists TEmail, v. }
    destruct (seen_in (linkedin_url c) _) eqn:Hl.
    { apply seen_in_iff in Hl as (v & ? & ? & ?). by exists TLinkedin, v. }
    destruct (seen_in (id c) _) eqn:Hi; [|done].
    apply seen_in_iff in Hi as (v & ? & ? & ?). by exists TId, v.
  - intros (t & v & Hk & Hv & Hin).
    assert (seen_in (key_of t c) (seen_at t s) = true) as Hs
      by (apply seen_in_iff; eauto).
    destruct t; simpl in Hs; rewrite ?Hs; try done;
      repeat (destruct (seen_in _ _); try done).
Qed.

Lemma seen_at_add_seen t s c v :
  v ∈ seen_at t (add_seen s c) ↔ (key_of t c = Some v ∧ v ≠ "") ∨ v ∈ seen_at t s.
Proof. destruct t; simpl; apply elem_of_add_if. Qed.

Lemma dedup_loop_acc s u l : dedup_loop s u l = u ++ dedup_loop s [] l.
Proof.
  revert s u. induction l as [|c l IH]; intros s u; simpl.
  - by rewrite app_nil_r.
  - destruct (is_duplicate s c); [done|].
    rewrite (IH _ (u ++ [c])), (IH _ [c]). by rewrite <- app_assoc.
Qed.

Lemma dedup_loop_app s u l1 l2 :
  dedup_loop s u (l1 ++ l2) = dedup_loop (seen_after s l1) (dedup_loop s u l1) l2.
Proof.
  revert s u. induction l1 as [|c l1 IH]; intros s u; simpl; [done|].
  destruct (is_duplicate s c); apply IH.
Qed.

Lemma seen_after_app s l1 l2 :
  seen_after s (l1 ++ l2) = seen_after (seen_after s l1) l2.
Proof.
  revert s. induction l1 as [|c l1 IH]; intros s; simpl; [done|].
  destruct (is_duplicate s c); apply IH.
Qed.

(** The seen sets hold exactly the usable keys of the retained records
    (and what they held at the start). *)
Lemma seen_after_spec t s l v :
  v ∈ seen_at t (seen_after s l) ↔
  v ∈ seen_at t s ∨ ∃ r, r ∈ dedup_loop s [] l ∧ key_of t r = Some v ∧ v ≠ "".
Proof.
  revert s. induction l as [|c l IH]; intros s; simpl.
  - set_solver.
  - destruct (is_duplicate s c); [apply IH|].
    rewrite IH, seen_at_add_seen, (dedup_loop_acc _ [c]). simpl.
    setoid_rewrite elem_of_cons. naive_solver.
Qed.

Lemma seen_after_empty_spec t l v :
  v ∈ seen_at t (seen_after seen_empty l) ↔
  ∃ r, r ∈ _deduplicate_contacts l ∧ key_of t r = Some v ∧ v ≠ "".
Proof.
  rewrite seen_after_spec. unfold _deduplicate_contacts.
  destruct t; set_solver.
Qed.

Lemma shares_iff t a b :
  shares t a b ↔ ∃ v, key_of t a = Some v ∧ v ≠ "" ∧ key_of t b = Some v.
Proof.
  unfold shares. split.
  - intros [Ht Heq]. apply truthy_inv in Ht as (v & Hv & ?).
    exists v. by rewrite <- Heq.
  - intros (v & Ha & Hv & Hb). rewrite Ha, Hb. by rewrite truthy_Some.
Qed.

(** A record is flagged exactly when one of its usable keys is carried
    by a record retained before it. *)
Lemma is_duplicate_after l c :
  is_duplicate (seen_after seen_empty l) c = true ↔
  ∃ r, r ∈ _deduplicate_contacts l ∧ shares_any c r.
Proof.
  rewrite is_duplicate_iff. unfold shares_any.
  setoid_rewrite seen_after_empty_spec. setoid_rewrite shares_iff.
  naive_solver.
Qed.

Lemma dedup_snoc l c :
  _deduplicate_contacts (l ++ [c]) =
  if is_duplicate (seen_after seen_empty l) c
  then _deduplicate_contacts l
  else _deduplicate_contacts l ++ [c].
Proof.
  unfold _deduplicate_contacts. rewrite dedup_loop_app. simpl.
  by destruct (is_duplicate _ c).
Qed.

Lemma is_duplicate_mono s l c :
  is_duplicate s c = true → is_duplicate (seen_after s l) c = true.
Proof.
  rewrite !is_duplicate_iff. intros (t & v & ? & ? & ?).
  exists t, v. rewrite seen_after_spec. auto.
Qed.

Lemma is_duplicate_add_seen_self s c :
  (∃ t, truthy (key_of t c) = true) → is_duplicate (add_seen s c) c = true.
Proof.
  intros [t Ht]. apply truthy_inv in Ht as (v & Hk & Hv).
  apply is_duplicate_iff. exists t, v. rewrite seen_at_add_seen. auto.
Qed.

Lemma tier_key_truthy wrap k o :
  truthy k = true → ∃ v, k = Some v ∧ v ≠ "" ∧ tier_key wrap k o = wrap v.
Proof.
  intros Ht. destruct (truthy_inv _ Ht) as (v & -> & Hv).
  exists v. unfold tier_key. by rewrite Ht.
Qed.

Lemma tier_key_falsy wrap k o : truthy k = false → tier_key wrap k o = o.
Proof. intros Ht. unfold tier_key. destruct k; by rewrite ?Ht. Qed.

(** The four cases of the priority rule. *)
Lemma identity_key_cases c :
  (∃ v, dedup_email c = Some v ∧ v ≠ "" ∧ identity_key_of c = KEmail v) ∨
  (truthy (dedup_email c) = false ∧
   ∃ v, linkedin_url c = Some v ∧ v ≠ "" ∧ identity_key_of c = KProfile v) ∨
  (truthy (dedup_email c) = false ∧ truthy (linkedin_url c) = false ∧
   ∃ v, id c = Some v ∧ v ≠ "" ∧ identity_key_of c = KProvider v) ∨
  (truthy (dedup_email c) = false ∧ truthy (linkedin_url c) = false ∧
   truthy (id c) = false ∧ identity_key_of c = KNone).
Proof.
  unfold identity_key_of.
  destruct (truthy (dedup_email c)) eqn:He.
  { left. by apply tier_key_truthy. }
  rewrite (tier_key_falsy _ _ _ He). right.
  destruct (truthy (linkedin_url c)) eqn:Hl.
  { left. split; [done|]. by apply tier_key_truthy. }
  rewrite (tier_key_falsy _ _ _ Hl). right.
  destruct (truthy (id c)) eqn:Hi.
  { left. do 2 (split; [done|]). by apply tier_key_truthy. }
  rewrite (tier_key_falsy _ _ _ Hi). by right.
Qed.

Lemma identity_key_some c :
  identity_key_of c ≠ KNone ↔ ∃ t, truthy (key_of t c) = true.
Proof.
  split.
  - intros Hk.
    destruct (identity_key_cases c)
      as [(v & E & Hv & _)|[(_ & v & E & Hv & _)|[(_ & _ & v & E & Hv & _)|(_ & _ & _ & ?)]]];
      [exists TEmail|exists TLinkedin|exists TId|done];
      simpl; rewrite E; by apply truthy_Some.
  - intros [t Ht].
    destruct (identity_key_cases c)
      as [(v & _ & _ & ->)|[(_ & v & _ & _ & ->)|[(_ & _ & v & _ & _ & ->)|(He & Hl & Hi & _)]]];
      try done.
    destruct t; simpl in Ht; congruence.
Qed.

(** Two records with the same non-trivial IdentityKey share a usable
    field of some tier. *)
Lemma identity_key_shares a b :
  identity_key_of a ≠ KNone → identity_key_of a = identity_key_of b →
  shares_any a b.
Proof.
  intros Hn Heq.
  destruct (identity_key_cases a)
    as [(v & Ea & Hv & Ka)|[(_ & v & Ea & Hv & Ka)|[(_ & _ & v & Ea & Hv & Ka)|(_ & _ & _ & ?)]]];
    [exists TEmail|exists TLinkedin|exists TId|done];
    apply shares_iff; exists v; simpl; (split; [done|]); (split; [done|]);
    rewrite Ka in Heq;
    destruct (identity_key_cases b)
      as [(w & Eb & _ & Kb)|[(_ & w & Eb & _ & Kb)|[(_ & _ & w & Eb & _ & Kb)|(_ & _ & _ & Kb)]]];
    congruence.
Qed.

Lemma shares_any_sym a b : shares_any a b → shares_any b a.
Proof.
  intros [t [Ht Heq]]. exists t. split; [by rewrite <- Heq | done].
Qed.

(** Every retained record was not flagged by the seen sets the loop
    started with, and shares no usable key with a record retained
    before it. *)
Lemma dedup_loop_fresh s l o1 a o2 :
  dedup_loop s [] l = o1 ++ a :: o2 →
  is_duplicate s a = false ∧ ∀ r, r ∈ o1 → ¬ shares_any a r.
Proof.
  revert s o1. induction l as [|c l IH]; intros s o1; simpl.
  { by destruct o1. }
  destruct (is_duplicate s c) eqn:Hd; [by apply IH|].
  rewrite (dedup_loop_acc _ [c]). simpl.
  destruct o1 as [|c' o1]; simpl; intros [= <- Hrest].
  { subst. split; [done|]. by intros r ?%elem_of_nil. }
  destruct (IH _ _ Hrest) as [Ha Hfresh]. split.
  - apply not_true_is_false. intros Hdup. apply not_true_iff_false in Ha.
    apply Ha. revert Hdup. rewrite !is_duplicate_iff.
    intros (t & v & ? & ? & ?). exists t, v. rewrite seen_at_add_seen. auto.
  - intros r [->|Hr]%elem_of_cons; [|by apply Hfresh].
    intros [t Hsh]. apply shares_iff in Hsh as (v & Hka & Hv & Hkc).
    apply not_true_iff_false in Ha. apply Ha, is_duplicate_iff.
    exists t, v. rewrite seen_at_add_seen. auto.
Qed.

Lemma dedup_loop_sublist s l : dedup_loop s [] l `sublist_of` l.
Proof.
  revert s. induction l as [|c l IH]; intros s; simpl; [done|].
  destruct (is_duplicate s c).
  - by apply sublist_cons.
  - rewrite (dedup_loop_acc _ [c]). simpl. by apply sublist_skip.
Qed.

(** A list whose records are all flagged adds nothing. *)
Lemma dedup_loop_all_duplicates s u l :
  (∀ c, c ∈ l → is_duplicate s c = true) → dedup_loop s u l = u.
Proof.
  induction l as [|c l IH]; intros Hall; simpl; [done|].
  rewrite (Hall c) by (apply elem_of_cons; auto).
  apply IH. intros c' Hc'. apply Hall, elem_of_cons. auto.
Qed.

(** After a list has been merged, each of its records that carries a
    usable key is flagged. *)
Lemma seen_after_covers s l c :
  c ∈ l → identity_key_of c ≠ KNone → is_duplicate (seen_after s l) c = true.
Proof.
  intros Hin Hk. apply identity_key_some in Hk.
  revert s. induction l as [|c' l IH]; intros s; [by apply elem_of_nil in Hin|].
  simpl. apply elem_of_cons in Hin as [->|Hin].
  - destruct (is_duplicate s c') eqn:Hd.
    + by apply is_duplicate_mono.
    + by apply is_duplicate_mono, is_duplicate_add_seen_self.
  - destruct (is_duplicate s c'); by apply IH.
Qed.

(** Every record of the input is retained or shares a usable key with a
    retained record. *)
Lemma dedup_covers l c :
  c ∈ l →
  c ∈ _deduplicate_contacts l ∨ ∃ r, r ∈ _deduplicate_contacts l ∧ shares_any c r.
Proof.
  induction l as [|c' l IH] using rev_ind; [by intros ?%elem_of_nil|].
  rewrite elem_of_app, list_elem_of_singleton, dedup_snoc.
  destruct (is_duplicate (seen_after seen_empty l) c') eqn:Hd.
  - intros [Hin| ->]; [by apply IH|]. right. by apply is_duplicate_after.
  - intros [Hin| ->].
    + destruct (IH Hin) as [?|(r & ? & ?)]; [left|right; exists r];
        rewrite ?elem_of_app; auto.
    + left. rewrite elem_of_app, list_elem_of_singleton. auto.
Qed.

(** ** Properties of the controller loop *)

Section controller_facts.
Context {W : Type} (sv : services W) (a : Args).

Lemma run_loop_eq st :
  run_loop sv a st =
  match loop_step sv a st with
  | Some st' => run_loop sv a st'
  | None => st
  end.
Proof.
  funelim (run_loop sv a st).
  - by rewrite Hstep.
  - by match goal with E : loop_step _ _ _ = None |- _ => rewrite E end.
Qed.

(** The loop ends in a state from which no further turn is taken. *)
Lemma run_loop_stops st : loop_step sv a (run_loop sv a st) = None.
Proof.
  funelim (run_loop sv a st); done.
Qed.

(** It gets there in finitely many turns. *)
Lemma run_loop_rounds st : ∃ n, rounds sv a n st = Some (run_loop sv a st).
Proof.
  funelim (run_loop sv a st).
  - match goal with IH : ∃ n, _ |- _ => destruct IH as [n Hn] end.
    exists (S n). simpl. by rewrite Hstep.
  - by exists 0%nat.
Qed.

Lemma rounds_run_loop n st st' :
  rounds sv a n st = Some st' → run_loop sv a st = run_loop sv a st'.
Proof.
  revert st. induction n as [|n IH]; intros st; simpl.
  - by intros [= ->].
  - destruct (loop_step sv a st) as [st1|] eqn:Hs; [|done].
    intros Hr. rewrite (run_loop_eq st), Hs. by apply IH.
Qed.

Lemma run_loop_final n st st' :
  rounds sv a n st = Some st' → loop_step sv a st' = None →
  run_loop sv a st = st'.
Proof.
  intros Hr Hs. rewrite (rounds_run_loop _ _ _ Hr), run_loop_eq. by rewrite Hs.
Qed.

Lemma rounds_invariant (I : loop_state W → Prop) :
  (∀ st st', I st → loop_step sv a st = Some st' → I st') →
  ∀ n st st', I st → rounds sv a n st = Some st' → I st'.
Proof.
  intros Hpres n. induction n as [|n IH]; intros st st' HI; simpl.
  - by intros [= <-].
  - destruct (loop_step sv a st) as [st1|] eqn:Hs; [|done]. eauto.
Qed.

Lemma run_loop_invariant (I : loop_state W → Prop) :
  (∀ st st', I st → loop_step sv a st = Some st' → I st') →
  ∀ st, I st → I (run_loop sv a st).
Proof.
  intros Hpres st HI. destruct (run_loop_rounds st) as [n Hn].
  by eapply rounds_invariant.
Qed.

(** What one turn of the loop changes. *)
Lemma loop_step_spec st st' :
  loop_step sv a st = Some st' →
  ∃ q extra entry new_contacts,
    search_queries st !! next_index st = Some q ∧
    Z.of_nat (length (all_contacts st)) < min_results a ∧
    next_index st' = S (next_index st) ∧
    iteration st' = iteration st + 1 ∧
    search_queries st' = search_queries st ++ extra ∧
    (extra ≠ [] → iteration st' < max_iterations a) ∧
    search_history st' = search_history st ++ [entry] ∧
    h_query_params entry = q ∧
    h_iteration entry = iteration st + 1 ∧
    all_contacts st' = all_contacts st ++ new_contacts.
Proof.
  unfold loop_step.
  destruct (search_queries st !! next_index st) as [q|] eqn:Hq; [|done].
  case_bool_decide as Hmin; [done|]. intros [= <-].
  unfold loop_body.
  destruct (_execute_apollo_search _ _ _ _) as [e1 [contacts companies]].
  destruct contacts as [|c contacts].
  - case_bool_decide as Hit.
    + destruct (_refine_failed_search _ _ _ _ _ _) as [e2 refined].
      eexists q, refined, _, []. simpl. rewrite app_nil_r.
      repeat split; try done; lia.
    + eexists q, [], _, []. simpl. rewrite !app_nil_r.
      repeat split; try done; lia.
  - destruct (bool_decide _ && bool_decide _) eqn:Hc.
    + apply andb_true_iff in Hc as [_ Hit%bool_decide_eq_true].
      destruct (_learn_and_expand _ _ _ _ _ _) as [e2 expansion].
      eexists q, expansion, _, (c :: contacts). simpl.
      repeat split; try done; lia.
    + eexists q, [], _, (c :: contacts). simpl. rewrite !app_nil_r.
      repeat split; try done; lia.
Qed.

Lemma loop_invariant_initial (e : env W) queries :
  loop_invariant (initial_state e queries).
Proof.
  unfold loop_invariant, executed. simpl. repeat split; try done; lia.
Qed.

Lemma loop_invariant_step st st' :
  loop_invariant st → loop_step sv a st = Some st' → loop_invariant st'.
Proof.
  intros (Hex & Hle & Hlen & Hit) Hs.
  destruct (loop_step_spec _ _ Hs)
    as (q & extra & entry & cs & Hq & _ & Hn & Hi & Hqs & _ & Hh & Hqe & _ & _).
  unfold loop_invariant, executed in *.
  rewrite Hn, Hi, Hqs, Hh, fmap_app, Hex, !length_app. simpl.
  pose proof (lookup_lt_Some _ _ _ Hq) as Hlt.
  repeat split; try lia.
  rewrite take_app_le by lia.
  rewrite (take_S_r _ _ q) by done. by rewrite Hqe.
Qed.

Lemma rounds_loop_invariant n (e : env W) queries st :
  rounds sv a n (initial_state e queries) = Some st → loop_invariant st.
Proof.
  apply (rounds_invariant loop_invariant); [apply loop_invariant_step|].
  apply loop_invariant_initial.
Qed.

Lemma rounds_next_index n st st' :
  rounds sv a n st = Some st' → next_index st' = (next_index st + n)%nat.
Proof.
  revert st. induction n as [|n IH]; intros st; simpl.
  - intros [= <-]. lia.
  - destruct (loop_step sv a st) as [st1|] eqn:Hs; [|done].
    intros Hr. rewrite (IH _ Hr).
    destruct (loop_step_spec _ _ Hs) as (?&?&?&?&_&_&->&_). lia.
Qed.
(** Every turn of the loop calls the provider, and the trace only
    grows. *)
Lemma claude_call_calls (e : env W) p :
  calls (claude_call sv e p).1 = calls e ++ [CallClaude p].
Proof. unfold claude_call. by destruct (messages_create sv (world e) p). Qed.

Lemma loop_step_calls st st' :
  loop_step sv a st = Some st' →
  ∃ q more,
    calls (st_env st') =
      calls (st_env st) ++ CallApollo q (max_results_per_query a) :: more.
Proof.
  unfold loop_step.
  destruct (search_queries st !! next_index st) as [q|]; [|done].
  case_bool_decide; [done|]. intros [= <-]. exists q.
  unfold loop_body, _execute_apollo_search, apollo_call.
  destruct (search_people sv _ _ _) as [w [ex|contacts]].
  - case_bool_decide.
    + unfold _refine_failed_search.
      match goal with |- context [claude_call sv ?e ?p] =>
        pose proof (claude_call_calls e p) as Hc;
        destruct (claude_call sv e p) as [e2 [?|text]] end;
        [|destruct (json_loads sv text)];
        simpl in *; rewrite Hc, <- app_assoc; by eexists.
    + exists []. done.
  - destruct contacts as [|c contacts].
    + case_bool_decide.
      * unfold _refine_failed_search.
        match goal with |- context [claude_call sv ?e ?p] =>
          pose proof (claude_call_calls e p) as Hc;
          destruct (claude_call sv e p) as [e2 [?|text]] end;
          [|destruct (json_loads sv text)];
          simpl in *; rewrite Hc, <- app_assoc; by eexists.
      * exists []. done.
    + destruct (bool_decide _ && bool_decide _).
      * unfold _learn_and_expand.
        match goal with |- context [claude_call sv ?e ?p] =>
          pose proof (claude_call_calls e p) as Hc;
          destruct (claude_call sv e p) as [e2 [?|text]] end;
          [|destruct (json_loads sv text)];
          simpl in *; rewrite Hc, <- app_assoc; by eexists.
      * exists []. done.
Qed.

Lemma run_loop_calls st :
  calls (st_env st) `prefix_of` calls (st_env (run_loop sv a st)).
Proof.
  apply (run_loop_invariant
           (λ s, calls (st_env st) `prefix_of` calls (st_env s))); [|done].
  intros s s' Hp (q & more & Hc)%loop_step_calls.
  etrans; [exact Hp|]. rewrite Hc. by apply prefix_app_r.
Qed.
End controller_facts.

(** ** The claims on [_deduplicate_contacts] *)

Lemma placeholder_dedup_email c : placeholder_email c → dedup_email c = None.
Proof.
  intros (e & He & Hin). unfold dedup_email. rewrite He.
  by rewrite bool_decide_eq_true_2.
Qed.

Lemma dedup_singleton c : _deduplicate_contacts [c] = [c].
Proof.
  unfold _deduplicate_contacts. simpl.
  assert (is_duplicate seen_empty c = false) as ->; [|done].
  apply not_true_is_false. rewrite is_duplicate_iff.
  intros (t & v & _ & _ & Hin). destruct t; set_solver.
Qed.

Lemma dedup_pairwise l i j x y :
  (i < j)%nat →
  _deduplicate_contacts l !! i = Some x →
  _deduplicate_contacts l !! j = Some y →
  ¬ shares_any y x.
Proof.
  intros Hij Hi Hj.
  pose proof (take_drop_middle _ _ _ Hj) as Hsplit. symmetry in Hsplit.
  apply dedup_loop_fresh in Hsplit as [_ Hfresh]. apply Hfresh.
  apply (list_elem_of_lookup_2 _ i). by rewrite lookup_take_lt.
Qed.

Lemma dedup_snoc_dropped l c :
  _deduplicate_contacts (l ++ [c]) = _deduplicate_contacts l ↔
  ∃ r, r ∈ _deduplicate_contacts l ∧ shares_any c r.
Proof.
  rewrite <- is_duplicate_after, dedup_snoc.
  destruct (is_duplicate _ c); split; try done.
  intros Heq. apply (f_equal length) in Heq. rewrite length_app in Heq.
  simpl in Heq. lia.
Qed.

(** C5 (amended).  Each incoming record is compared on all three fields
    at once: it is dropped exactly when its non-placeholder email, its
    profile URL or its provider id is carried by a record retained
    before it, and appended unchanged otherwise.  Hence a record whose
    priority IdentityKey is already present is dropped, and no two
    retained records share a non-trivial IdentityKey. *)
Theorem dedup_any_tier_policy (l : list contact) (c : contact) :
  _deduplicate_contacts (l ++ [c]) =
    (if decide (Exists (shares_any c) (_deduplicate_contacts l))
     then _deduplicate_contacts l
     else _deduplicate_contacts l ++ [c]) ∧
  (identity_key_of c ≠ KNone →
   identity_key_of c ∈ (identity_key_of <$> _deduplicate_contacts l) →
   _deduplicate_contacts (l ++ [c]) = _deduplicate_contacts l) ∧
  (∀ i j x y,
     i ≠ j →
     _deduplicate_contacts l !! i = Some x →
     _deduplicate_contacts l !! j = Some y →
     identity_key_of x ≠ KNone →
     identity_key_of x ≠ identity_key_of y).
Proof.
  split; [|split].
  - rewrite dedup_snoc.
    destruct (is_duplicate _ c) eqn:Hd.
    + apply is_duplicate_after in Hd. rewrite decide_True; [done|].
      by apply Exists_exists.
    + rewrite decide_False; [done|]. rewrite Exists_exists.
      intros Hex. apply is_duplicate_after in Hex. congruence.
  - intros Hk (r & Heq & Hr)%list_elem_of_fmap.
    apply dedup_snoc_dropped. exists r. split; [done|].
    by apply identity_key_shares.
  - intros i j x y Hij Hi Hj Hk Heq.
    destruct (decide (i < j)%nat).
    + apply (dedup_pairwise l i j x y); [done..|].
      by apply shares_any_sym, identity_key_shares.
    + apply (dedup_pairwise l j i y x); [lia|done..|].
      apply identity_key_shares; congruence.
Qed.

Lemma dedup_any_tier_policy_witness :
  let x := sample_contact None (Some "ana@acme.io") (Some "in/ana") in
  let y := sample_contact None (Some "bo@acme.io") None in
  (identity_key_of x ≠ KNone ∧
   identity_key_of x ∈ (identity_key_of <$> _deduplicate_contacts [x; y]) ∧
   _deduplicate_contacts ([x; y] ++ [x]) = _deduplicate_contacts [x; y]) ∧
  ((0 ≠ 1)%nat ∧
   _deduplicate_contacts [x; y] !! 0%nat = Some x ∧
   _deduplicate_contacts [x; y] !! 1%nat = Some y ∧
   identity_key_of x ≠ KNone ∧
   identity_key_of x ≠ identity_key_of y).
Proof.
  intros x y.
  assert (identity_key_of x ≠ KNone) as Hk by (by vm_compute).
  assert (identity_key_of x ∈ (identity_key_of <$> _deduplicate_contacts [x; y]))
    as Hin by (apply elem_of_cons; left; reflexivity).
  assert (_deduplicate_contacts [x; y] !! 0%nat = Some x) as H0 by reflexivity.
  assert (_deduplicate_contacts [x; y] !! 1%nat = Some y) as H1 by reflexivity.
  split.
  - split; [done|]. split; [done|].
    exact (proj1 (proj2 (dedup_any_tier_policy [x; y] x)) Hk Hin).
  - split; [lia|]. do 3 (split; [done|]).
    exact (proj2 (proj2 (dedup_any_tier_policy [x; y] x))
             0%nat 1%nat x y (ltac:(lia)) H0 H1 Hk).
Defined.

(** C5 fails as stated: a record whose IdentityKey is fresh is dropped
    all the same when a lower-priority field matches. *)
Lemma dedup_fresh_key_dropped :
  let a := sample_contact None (Some "ana@acme.io") (Some "in/ana") in
  let b := sample_contact None (Some "ana@corp.io") (Some "in/ana") in
  (identity_key_of b ∉ (identity_key_of <$> _deduplicate_contacts [a])) ∧
  _deduplicate_contacts ([a] ++ [b]) = _deduplicate_contacts [a] ∧
  _deduplicate_contacts ([a] ++ [b]) ≠ _deduplicate_contacts [a] ++ [b].
Proof.
  intros a b. split; [|split].
  - rewrite dedup_singleton. simpl. rewrite list_elem_of_singleton. by vm_compute.
  - by vm_compute.
  - by vm_compute.
Qed.

(** C6 (amended).  For every list whose records each carry a usable
    identity field (a non-empty, non-placeholder email, a profile URL or
    a provider id), merging the list a second time adds nothing, whatever
    was accumulated before: de-duplicating the list followed by itself
    gives the same output as de-duplicating it once. *)
Theorem dedup_idempotent_identified (l0 l : list contact) :
  (∀ c, c ∈ l → identity_key_of c ≠ KNone) →
  _deduplicate_contacts (l0 ++ l ++ l) = _deduplicate_contacts (l0 ++ l) ∧
  _deduplicate_contacts (l ++ l) = _deduplicate_contacts l.
Proof.
  intros Hid.
  assert (∀ l1, _deduplicate_contacts (l1 ++ l ++ l) = _deduplicate_contacts (l1 ++ l))
    as Hgen.
  { intros l1. unfold _deduplicate_contacts.
    rewrite (app_assoc l1 l l), dedup_loop_app.
    apply dedup_loop_all_duplicates. intros c Hc.
    rewrite seen_after_app. apply seen_after_covers; auto. }
  split; [apply Hgen | apply (Hgen [])].
Qed.

Lemma dedup_idempotent_identified_witness :
  let x := sample_contact (Some "p-17") None None in
  let y := sample_contact None (Some "bo@acme.io") None in
  (∀ c, c ∈ [x; y] → identity_key_of c ≠ KNone) ∧
  _deduplicate_contacts ([y] ++ [x; y] ++ [x; y]) = _deduplicate_contacts ([y] ++ [x; y]) ∧
  _deduplicate_contacts ([x; y] ++ [x; y]) = _deduplicate_contacts [x; y].
Proof.
  intros x y.
  assert (∀ c, c ∈ [x; y] → identity_key_of c ≠ KNone) as Hid.
  { intros c Hc. apply elem_of_cons in Hc as [->|Hc]; [by vm_compute|].
    apply list_elem_of_singleton in Hc as ->. by vm_compute. }
  split; [exact Hid|].
  exact (dedup_idempotent_identified [y] [x; y] Hid).
Defined.

(** C6 fails as stated: a record with no usable identity field is added
    again by the second merge. *)
Lemma dedup_not_idempotent_unidentified :
  let c := sample_contact None None None in
  identity_key_of c = KNone ∧
  _deduplicate_contacts ([c] ++ [c]) = [c; c] ∧
  _deduplicate_contacts [c] = [c] ∧
  _deduplicate_contacts ([c] ++ [c]) ≠ _deduplicate_contacts [c].
Proof. intros c. by vm_compute. Qed.

(** C7.  Two records whose emails are placeholders are both retained
    unless they share a profile URL or a provider id; and inside any
    list, a record with a placeholder email is dropped only when a
    record retained before it has the same profile URL or the same
    provider id. *)
Theorem placeholder_emails_never_collapse (l : list contact) (a b : contact) :
  placeholder_email a → placeholder_email b →
  (_deduplicate_contacts [a; b] = [a; b] ↔
     ¬ (shares TLinkedin b a ∨ shares TId b a)) ∧
  (_deduplicate_contacts (l ++ [b]) = _deduplicate_contacts l →
   ∃ r, r ∈ _deduplicate_contacts l ∧ (shares TLinkedin b r ∨ shares TId b r)).
Proof.
  intros Ha Hb.
  assert (∀ r, shares_any b r ↔ shares TLinkedin b r ∨ shares TId b r) as Htier.
  { intros r. split.
    - intros [[] Hs]; auto. destruct Hs as [Ht _]. simpl in Ht.
      by rewrite (placeholder_dedup_email _ Hb) in Ht.
    - intros [?|?]; [by exists TLinkedin | by exists TId]. }
  split.
  - change [a; b] with ([a] ++ [b]) at 1.
    rewrite <- Htier. split.
    + intros Heq Hs.
      assert (_deduplicate_contacts ([a] ++ [b]) = _deduplicate_contacts [a]) as Hd.
      { apply dedup_snoc_dropped. exists a. rewrite dedup_singleton.
        by rewrite list_elem_of_singleton. }
      rewrite Hd, dedup_singleton in Heq. done.
    + intros Hn. rewrite dedup_snoc.
      destruct (is_duplicate _ b) eqn:Hd; [|by rewrite dedup_singleton].
      apply is_duplicate_after in Hd as (r & Hr & Hs).
      rewrite dedup_singleton, list_elem_of_singleton in Hr. by subst.
  - intros (r & Hr & Hs)%dedup_snoc_dropped. exists r. by rewrite <- Htier.
Qed.

Lemma placeholder_emails_never_collapse_witness :
  let a := sample_contact (Some "p-1") (Some "email_not_unlocked@domain.com") (Some "in/ana") in
  let b := sample_contact (Some "p-2") (Some "email_not_unlocked@domain.com") (Some "in/bo") in
  placeholder_email a ∧ placeholder_email b ∧
  ¬ (shares TLinkedin b a ∨ shares TId b a) ∧
  _deduplicate_contacts [a; b] = [a; b].
Proof.
  intros a b.
  assert (placeholder_email a) as Ha.
  { exists "email_not_unlocked@domain.com". split; [reflexivity|].
    apply (bool_decide_unpack _). by vm_compute. }
  assert (placeholder_email b) as Hb.
  { exists "email_not_unlocked@domain.com". split; [reflexivity|].
    apply (bool_decide_unpack _). by vm_compute. }
  assert (¬ (shares TLinkedin b a ∨ shares TId b a)) as Hn.
  { apply (bool_decide_unpack _). by vm_compute. }
  do 3 (split; [assumption|]).
  exact (proj2 (proj1 (placeholder_emails_never_collapse [] a b Ha Hb)) Hn).
Defined.

(** C10 (amended).  The output is an order-preserving subsequence of the
    input, made of unaltered input records; a retained record shares no
    usable email, profile URL or id with any record retained before it;
    and every input record is retained or shares such a field with a
    retained record. *)
Theorem dedup_subsequence_first_retained (l : list contact) :
  _deduplicate_contacts l `sublist_of` l ∧
  (∀ o1 x o2, _deduplicate_contacts l = o1 ++ x :: o2 →
     ∀ r, r ∈ o1 → ¬ shares_any x r) ∧
  (∀ c, c ∈ l →
     c ∈ _deduplicate_contacts l ∨
     ∃ r, r ∈ _deduplicate_contacts l ∧ shares_any c r).
Proof.
  split; [apply dedup_loop_sublist|]. split.
  - intros o1 x o2 Heq. by apply dedup_loop_fresh in Heq as [_ ?].
  - apply dedup_covers.
Qed.

Lemma dedup_subsequence_first_retained_witness :
  let k := sample_contact None (Some "ana@acme.io") (Some "in/ana") in
  let j := sample_contact None (Some "bo@acme.io") (Some "in/ana") in
  let i := sample_contact None (Some "bo@acme.io") (Some "in/bo") in
  (_deduplicate_contacts [k; j; i] = [k] ++ i :: [] ∧ k ∈ [k] ∧ ¬ shares_any i k) ∧
  (j ∈ [k; j; i] ∧
   (j ∈ _deduplicate_contacts [k; j; i] ∨
    ∃ r, r ∈ _deduplicate_contacts [k; j; i] ∧ shares_any j r)).
Proof.
  intros k j i.
  pose proof (dedup_subsequence_first_retained [k; j; i]) as (_ & Hfresh & Hcov).
  assert (_deduplicate_contacts [k; j; i] = [k] ++ i :: []) as Hout by reflexivity.
  assert (k ∈ [k]) as Hk by (by apply list_elem_of_singleton).
  assert (j ∈ [k; j; i]) as Hj by (apply elem_of_cons; right; apply elem_of_cons; by left).
  split.
  - do 2 (split; [assumption|]). exact (Hfresh [k] i [] Hout k Hk).
  - split; [assumption|]. exact (Hcov j Hj).
Defined.

(** C10 fails as stated: a retained record need not be the first input
    record with its identity, because a dropped record leaves no trace
    in the seen sets. *)
Lemma dedup_retained_not_first_occurrence :
  let k := sample_contact None (Some "ana@acme.io") (Some "in/ana") in
  let j := sample_contact None (Some "bo@acme.io") (Some "in/ana") in
  let i := sample_contact None (Some "bo@acme.io") (Some "in/bo") in
  _deduplicate_contacts ([k] ++ j :: [i]) = [k; i] ∧
  identity_key_of j = identity_key_of i ∧
  identity_key_of i ≠ KNone ∧
  j ≠ i.
Proof. intros k j i. by vm_compute. Qed.

(** ** The claims on [run_agentic_search] *)

Section controller_claims.
Context {W : Type} (sv : services W) (a : Args).

Lemma dedup_length_le l :
  (length (_deduplicate_contacts l) ≤ length l)%nat.
Proof. apply sublist_length, dedup_loop_sublist. Qed.

(** The run as a finite number of turns of the loop. *)
Lemma run_agentic_search_rounds (e e1 : env W) queries n st :
  _generate_search_queries sv e (user_query a) (product_description a)
    = (e1, inr queries) →
  rounds sv a n (initial_state e1 queries) = Some st →
  loop_step sv a st = None →
  run_agentic_search sv a e = (st_env st, inr (final_result st)).
Proof.
  intros Hg Hr Hs. unfold run_agentic_search. rewrite Hg.
  by rewrite (run_loop_final sv a _ _ _ Hr Hs).
Qed.

Lemma final_result_initial (e : env W) queries :
  final_result (initial_state e queries) = empty_result.
Proof.
  unfold final_result, empty_result, initial_state.
  cbn [all_contacts all_companies search_history iteration].
  by rewrite elements_empty, size_empty.
Qed.

(** C4.  If after [n] rounds the de-duplicated accumulated contacts
    number at least [min_results], the loop takes no further turn: the
    run returns the state reached there, its history has length [n] and
    its round counter is [n]. *)
Theorem convergence_stops_run (e e1 : env W) (queries : list QueryParams)
    (n : nat) (st : loop_state W) :
  _generate_search_queries sv e (user_query a) (product_description a)
    = (e1, inr queries) →
  rounds sv a n (initial_state e1 queries) = Some st →
  min_results a ≤ Z.of_nat (length (_deduplicate_contacts (all_contacts st))) →
  loop_step sv a st = None ∧
  ∃ r, run_agentic_search sv a e = (st_env st, inr r) ∧
       res_contacts r = _deduplicate_contacts (all_contacts st) ∧
       length (res_search_history r) = n ∧
       res_iterations r = Z.of_nat n.
Proof.
  intros Hg Hr Hmin.
  assert (loop_step sv a st = None) as Hstop.
  { unfold loop_step. destruct (search_queries st !! next_index st); [|done].
    rewrite bool_decide_eq_true_2; [done|].
    pose proof (dedup_length_le (all_contacts st)). lia. }
  split; [done|]. exists (final_result st).
  split; [by eapply run_agentic_search_rounds|].
  destruct (rounds_loop_invariant sv a _ _ _ _ Hr) as (_ & _ & Hlen & Hit).
  pose proof (rounds_next_index sv a _ _ _ Hr) as Hn. simpl in Hn.
  simpl. repeat split; [congruence|]. rewrite Hit. by rewrite Hn.
Qed.

(** C9 (amended).  At every point of a run the executed specs are the
    first entries of the queue, one per round and in order, and the
    pending ones are the rest; so when the planner never produced the
    same spec twice, no spec has been executed twice and no pending spec
    equals an executed one. *)
Theorem executed_is_queue_prefix (e1 : env W) (queries : list QueryParams)
    (n : nat) (st : loop_state W) :
  rounds sv a n (initial_state e1 queries) = Some st →
  executed st ++ pending st = search_queries st ∧
  length (executed st) = n ∧
  (NoDup (search_queries st) →
   NoDup (executed st) ∧ ∀ q, q ∈ pending st → q ∉ executed st).
Proof.
  intros Hr.
  destruct (rounds_loop_invariant sv a _ _ _ _ Hr) as (Hex & Hle & Hlen & _).
  pose proof (rounds_next_index sv a _ _ _ Hr) as Hn. simpl in Hn.
  assert (executed st ++ pending st = search_queries st) as Hsplit.
  { unfold pending. rewrite Hex. apply take_drop. }
  split; [done|]. split.
  - unfold executed. rewrite length_fmap. congruence.
  - rewrite <- Hsplit at 1. intros (Hnd & Hdisj & _)%NoDup_app.
    split; [done|]. intros q Hp He. by apply (Hdisj q).
Qed.

(** C2 (amended).  A provider failure is absorbed by the executor, which
    returns what a successful search with no result returns: no contact
    and no company.  The round is recorded with both counts at zero and
    no error, the accumulated contacts are unchanged, and the round is
    treated as a zero-result round: refined queries are requested and
    enqueued whenever the round counter is below [max_iterations]. *)
Theorem provider_error_is_zero_results (st : loop_state W) (q : QueryParams)
    (w' : W) (r : exn + list contact) :
  search_people sv (world (st_env st)) q (max_results_per_query a) = (w', r) →
  (∃ ex, r = inl ex) ∨ r = inr [] →
  let e1 := {| world := w';
               calls := calls (st_env st)
                          ++ [CallApollo q (max_results_per_query a)] |} in
  let history' :=
    search_history st ++
      [ {| h_iteration := iteration st + 1;
           h_query_params := q;
           h_results_count := 0;
           h_companies_found := 0 |} ] in
  _execute_apollo_search sv (st_env st) q (max_results_per_query a)
    = (e1, ([], [])) ∧
  search_history (loop_body sv a st q) = history' ∧
  all_contacts (loop_body sv a st q) = all_contacts st ∧
  search_queries (loop_body sv a st q) =
    search_queries st ++
      (if bool_decide (iteration st + 1 < max_iterations a)
       then (_refine_failed_search sv e1 q history'
               (user_query a) (product_description a)).2
       else []).
Proof.
  intros Hsp Hr e1 history'.
  assert (_execute_apollo_search sv (st_env st) q (max_results_per_query a)
          = (e1, ([], []))) as Hexec.
  { unfold _execute_apollo_search, apollo_call. rewrite Hsp.
    destruct Hr as [[ex ->]| ->]; [done|].
    unfold companies_of. simpl. by rewrite elements_empty. }
  split; [done|]. unfold loop_body. rewrite Hexec. simpl.
  fold history'. case_bool_decide.
  - destruct (_refine_failed_search _ _ _ _ _ _) as [e2 refined]. by simpl.
  - simpl. by rewrite app_nil_r.
Qed.

(** C3 (amended).  The bounds are not validated.  With a non-positive
    [min_results] the planner is still asked for the seed queries, and
    when its answer is unparsable (the fallback query) or parses to a
    list of query dictionaries, the run takes no turn of the loop: that
    seeding call is the only external call, the provider is never
    called, and the run returns the empty result, not an error. *)
Theorem run_without_bound_validation (e e1 : env W)
    (seed : list QueryParams) :
  min_results a ≤ 0 →
  _generate_search_queries sv e (user_query a) (product_description a)
    = (e1, inr seed) →
  calls e1 = calls e ++
    [CallClaude (PromptGenerate (user_query a) (product_description a))] ∧
  run_agentic_search sv a e = (e1, inr empty_result).
Proof.
  intros Hmin Hg. split.
  - unfold _generate_search_queries in Hg.
    pose proof (claude_call_calls sv e
      (PromptGenerate (user_query a) (product_description a))) as Hcc.
    destruct (claude_call sv e _) as [e' [ex|text]]; simpl in Hcc; [done|].
    destruct (json_loads sv text); by injection Hg as <- _.
  - unfold run_agentic_search. rewrite Hg, run_loop_eq.
    assert (loop_step sv a (initial_state e1 seed) = None) as ->.
    { unfold loop_step. destruct (_ !! _); [|done].
      rewrite bool_decide_eq_true_2; [done|]. simpl. lia. }
    by rewrite final_result_initial.
Qed.
End controller_claims.

(** ** The controller on explicit inputs *)

Lemma convergence_stops_run_witness :
  let x := sample_contact (Some "p-1") (Some "ana@acme.io") None in
  let y := sample_contact (Some "p-2") (Some "bo@acme.io") None in
  let seed := [query_titled "CEO"; query_titled "CTO"] in
  let sv := scripted seed [] [] (inr [x; y]) in
  let a := args_with 3 2 in
  let e1 := (_generate_search_queries sv env0 (user_query a) (product_description a)).1 in
  ∃ st,
    _generate_search_queries sv env0 (user_query a) (product_description a)
      = (e1, inr seed) ∧
    rounds sv a 1 (initial_state e1 seed) = Some st ∧
    min_results a ≤ Z.of_nat (length (_deduplicate_contacts (all_contacts st))) ∧
    loop_step sv a st = None ∧
    ∃ r, run_agentic_search sv a env0 = (st_env st, inr r) ∧
         res_contacts r = _deduplicate_contacts (all_contacts st) ∧
         length (res_search_history r) = 1%nat ∧
         res_iterations r = Z.of_nat 1.
Proof.
  intros x y seed sv a e1.
  exists (loop_body sv a (initial_state e1 seed) (query_titled "CEO")).
  assert (_generate_search_queries sv env0 (user_query a) (product_description a)
          = (e1, inr seed)) as Hg by reflexivity.
  assert (rounds sv a 1 (initial_state e1 seed)
          = Some (loop_body sv a (initial_state e1 seed) (query_titled "CEO")))
    as Hr by reflexivity.
  assert (min_results a ≤ Z.of_nat (length (_deduplicate_contacts
            (all_contacts (loop_body sv a (initial_state e1 seed) (query_titled "CEO"))))))
    as Hmin by (by vm_compute).
  do 3 (split; [assumption|]).
  exact (convergence_stops_run sv a env0 e1 seed 1 _ Hg Hr Hmin).
Defined.

Lemma executed_is_queue_prefix_witness :
  let seed := [query_titled "CEO"; query_titled "CTO"] in
  let sv := scripted seed [] [] (inr []) in
  let a := default_args "find leads" in
  let st := loop_body sv a (initial_state env0 seed) (query_titled "CEO") in
  rounds sv a 1 (initial_state env0 seed) = Some st ∧
  NoDup (search_queries st) ∧
  executed st ++ pending st = search_queries st ∧
  length (executed st) = 1%nat ∧
  NoDup (executed st) ∧ ∀ q, q ∈ pending st → q ∉ executed st.
Proof.
  intros seed sv a st.
  assert (rounds sv a 1 (initial_state env0 seed) = Some st) as Hr by reflexivity.
  assert (NoDup (search_queries st)) as Hnd
    by (apply (bool_decide_unpack _); by vm_compute).
  do 2 (split; [assumption|]).
  destruct (executed_is_queue_prefix sv a env0 seed 1 st Hr) as (Hsplit & Hlen & Hno).
  do 2 (split; [assumption|]). exact (Hno Hnd).
Defined.

(** C9 fails as stated: the controller does not filter the planner's
    output, so a spec the planner produced twice is pending while it
    has been executed, and is then executed again. *)
Lemma duplicate_spec_executed_twice :
  let q := query_titled "CEO" in
  let sv := scripted [q; q] [] [] (inr []) in
  let a := default_args "find leads" in
  (∃ st, rounds sv a 1 (initial_state env0 [q; q]) = Some st ∧
         q ∈ executed st ∧ q ∈ pending st) ∧
  (∃ e r, run_agentic_search sv a env0 = (e, inr r) ∧
          h_query_params <$> res_search_history r = [q; q]).
Proof.
  intros q sv a. split.
  - exists (loop_body sv a (initial_state env0 [q; q]) q).
    split; [reflexivity|].
    split; apply (bool_decide_unpack _); by vm_compute.
  - set (e1 := (_generate_search_queries sv env0 (user_query a)
                  (product_description a)).1).
    set (st := loop_body sv a (loop_body sv a (initial_state e1 [q; q]) q) q).
    exists (st_env st), (final_result st). split.
    + apply (run_agentic_search_rounds sv a env0 e1 [q; q] 2 st);
        [reflexivity | reflexivity | by vm_compute].
    + by vm_compute.
Qed.

Lemma provider_error_is_zero_results_witness :
  let q := query_titled "CEO" in
  let q' := query_titled "Founder" in
  let sv := scripted [q] [] [q'] (inl "ProviderUnavailable") in
  let a := default_args "find leads" in
  let st := initial_state env0 [q] in
  search_people sv (world (st_env st)) q (max_results_per_query a)
    = ((), inl "ProviderUnavailable") ∧
  ((∃ ex, inl "ProviderUnavailable" = @inl exn (list contact) ex) ∨
   @inl exn (list contact) "ProviderUnavailable" = inr []) ∧
  search_queries (loop_body sv a st q) =
    search_queries st ++
      (if bool_decide (iteration st + 1 < max_iterations a)
       then (_refine_failed_search sv
               {| world := ();
                  calls := calls (st_env st)
                             ++ [CallApollo q (max_results_per_query a)] |}
               q
               (search_history st ++
                  [ {| h_iteration := iteration st + 1;
                       h_query_params := q;
                       h_results_count := 0;
                       h_companies_found := 0 |} ])
               (user_query a) (product_description a)).2
       else []).
Proof.
  intros q q' sv a st.
  assert (search_people sv (world (st_env st)) q (max_results_per_query a)
          = ((), inl "ProviderUnavailable")) as Hsp by reflexivity.
  assert ((∃ ex, inl "ProviderUnavailable" = @inl exn (list contact) ex) ∨
          @inl exn (list contact) "ProviderUnavailable" = inr []) as Hr
    by (left; by exists "ProviderUnavailable").
  do 2 (split; [assumption|]).
  exact (proj2 (proj2 (proj2
    (provider_error_is_zero_results sv a st q () _ Hsp Hr)))).
Defined.

(** C2 fails as stated: a failed provider call is not reported and not
    recorded, the round is the same as a successful round without
    results down to the whole loop state, and the refined query is
    enqueued. *)
Lemma provider_error_not_reported :
  let q := query_titled "CEO" in
  let q' := query_titled "Founder" in
  let failing := scripted [q] [] [q'] (inl "ProviderUnavailable") in
  let no_result := scripted [q] [] [q'] (inr []) in
  let a := default_args "find leads" in
  let st := initial_state env0 [q] in
  (search_people failing () q 25).2 = inl "ProviderUnavailable" ∧
  (search_people no_result () q 25).2 = inr [] ∧
  _execute_apollo_search failing env0 q 25 = _execute_apollo_search no_result env0 q 25 ∧
  loop_body failing a st q = loop_body no_result a st q ∧
  search_queries (loop_body failing a st q) = [q; q'].
Proof. intros q q' failing no_result a st. by vm_compute. Qed.

Lemma run_without_bound_validation_witness :
  let seed := [query_titled "CEO"] in
  let sv := scripted seed [] [] (inr []) in
  let a := args_with 3 0 in
  let e1 := (_generate_search_queries sv env0 (user_query a) (product_description a)).1 in
  min_results a ≤ 0 ∧
  _generate_search_queries sv env0 (user_query a) (product_description a)
    = (e1, inr seed) ∧
  calls e1 = calls env0 ++
    [CallClaude (PromptGenerate (user_query a) (product_description a))] ∧
  run_agentic_search sv a env0 = (e1, inr empty_result).
Proof.
  intros seed sv a e1.
  assert (min_results a ≤ 0) as Hmin by (by vm_compute).
  assert (_generate_search_queries sv env0 (user_query a) (product_description a)
          = (e1, inr seed)) as Hg by reflexivity.
  do 2 (split; [assumption|]).
  exact (run_without_bound_validation sv a env0 e1 seed Hmin Hg).
Defined.

(** C3 fails as stated: with [min_results = 0] the planner is called,
    and the run returns a normal, empty result instead of an error. *)
Lemma zero_min_results_not_rejected :
  let sv := scripted [query_titled "CEO"] [] [] (inr []) in
  let a := args_with 3 0 in
  min_results a = 0 ∧
  run_agentic_search sv a env0 =
    ({| world := (); calls := [CallClaude (PromptGenerate "find leads" "")] |},
     inr empty_result).
Proof.
  intros sv a. split; [reflexivity|].
  rewrite (run_agentic_search_rounds sv a env0
             (_generate_search_queries sv env0 (user_query a)
                (product_description a)).1
             [query_titled "CEO"] 0
             (initial_state (_generate_search_queries sv env0 (user_query a)
                (product_description a)).1 [query_titled "CEO"]));
    [| reflexivity | reflexivity | by vm_compute].
  by rewrite final_result_initial.
Qed.

(** C1 (the code departs from it).  With the default arguments
    ([max_iterations = 3], [min_results = 10]), four seed queries from
    the planner and searches that find nothing, the loop runs once per
    seed query: the history has four entries and the round counter ends
    at four. *)
Theorem seed_longer_than_max_iterations :
  let seed := [query_titled "CEO"; query_titled "CTO";
               query_titled "VP Sales"; query_titled "Founder"] in
  let sv := scripted seed [] [] (inr []) in
  let a := default_args "find leads" in
  max_iterations a = 3 ∧
  ∃ e r, run_agentic_search sv a env0 = (e, inr r) ∧
         length (res_search_history r) = 4%nat ∧
         res_iterations r = 4 ∧
         h_iteration <$> res_search_history r = [1; 2; 3; 4].
Proof.
  intros seed sv a. split; [reflexivity|].
  set (e1 := (_generate_search_queries sv env0 (user_query a)
                (product_description a)).1).
  set (st := loop_body sv a (loop_body sv a (loop_body sv a (loop_body sv a
               (initial_state e1 seed) (query_titled "CEO")) (query_titled "CTO"))
               (query_titled "VP Sales")) (query_titled "Founder")).
  exists (st_env st), (final_result st). split.
  - apply (run_agentic_search_rounds sv a env0 e1 seed 4 st);
      [reflexivity | reflexivity | by vm_compute].
  - by vm_compute.
Qed.

(** ** Further properties of [_deduplicate_contacts] *)

Lemma dedup_loop_cons s c l :
  dedup_loop s [] (c :: l) =
  if is_duplicate s c then dedup_loop s [] l
  else c :: dedup_loop (add_seen s c) [] l.
Proof.
  simpl. destruct (is_duplicate s c); [done|]. by rewrite (dedup_loop_acc _ [c]).
Qed.

Lemma is_duplicate_seen_empty c : is_duplicate seen_empty c = false.
Proof.
  apply not_true_is_false. rewrite is_duplicate_iff.
  intros (t & v & _ & _ & Hin). destruct t; set_solver.
Qed.

Lemma dedup_loop_fixed_point s l :
  dedup_loop s [] (dedup_loop s [] l) = dedup_loop s [] l.
Proof.
  revert s. induction l as [|c l IH]; intros s; [done|].
  rewrite dedup_loop_cons. destruct (is_duplicate s c) eqn:Hd; [apply IH|].
  rewrite dedup_loop_cons, Hd. by rewrite IH.
Qed.

(** X1.  De-duplicating an already de-duplicated list changes nothing,
    for every list. *)
Theorem dedup_fixed_point (l : list contact) :
  _deduplicate_contacts (_deduplicate_contacts l) = _deduplicate_contacts l.
Proof. apply dedup_loop_fixed_point. Qed.

(** X2.  The function returns its input unchanged exactly when no
    record shares a usable email, profile URL or id with a record
    before it. *)
Theorem dedup_identity_iff (l : list contact) :
  _deduplicate_contacts l = l ↔
  ∀ l1 x l2, l = l1 ++ x :: l2 → ∀ r, r ∈ l1 → ¬ shares_any x r.
Proof.
  split.
  - intros Heq l1 x l2 Hl. rewrite <- Heq in Hl.
    by apply dedup_loop_fresh in Hl as [_ ?].
  - induction l as [|c l IH] using rev_ind; [done|]. intros Hfresh.
    assert (_deduplicate_contacts l = l) as Hl.
    { apply IH. intros l1 x l2 -> r Hr.
      apply (Hfresh l1 x (l2 ++ [c])); [|done]. by rewrite <- app_assoc. }
    rewrite dedup_snoc, Hl.
    destruct (is_duplicate _ c) eqn:Hd; [|done].
    apply is_duplicate_after in Hd as (r & Hr & Hs). rewrite Hl in Hr.
    exfalso. apply (Hfresh l c [] eq_refl r Hr Hs).
Qed.

(** X3.  Appending records to the input only appends to the output:
    the output for a list is a prefix of the output for any extension
    of it. *)
Theorem dedup_prefix_stable (l1 l2 : list contact) :
  _deduplicate_contacts l1 `prefix_of` _deduplicate_contacts (l1 ++ l2).
Proof.
  unfold _deduplicate_contacts.
  rewrite dedup_loop_app, (dedup_loop_acc _ (dedup_loop seen_empty [] l1)).
  by apply prefix_app_r.
Qed.

(** X4.  The first input record is always retained, as the first output
    record; in particular the output is empty only for the empty
    input. *)
Theorem dedup_head (l : list contact) :
  head (_deduplicate_contacts l) = head l ∧
  (_deduplicate_contacts l = [] ↔ l = []).
Proof.
  destruct l as [|c l]; [done|].
  unfold _deduplicate_contacts.
  rewrite dedup_loop_cons, is_duplicate_seen_empty. by split.
Qed.

Lemma dedup_loop_keeps_unidentified s l :
  filter (λ c, identity_key_of c = KNone) (dedup_loop s [] l)
  = filter (λ c, identity_key_of c = KNone) l.
Proof.
  revert s. induction l as [|c l IH]; intros s; [done|].
  rewrite dedup_loop_cons. destruct (is_duplicate s c) eqn:Hd.
  - rewrite filter_cons_False; [apply IH|].
    apply identity_key_some.
    apply is_duplicate_iff in Hd as (t & v & Hk & Hv & _).
    exists t. rewrite Hk. by apply truthy_Some.
  - rewrite !filter_cons. by rewrite IH.
Qed.

(** X5.  Records without any usable identity field are never dropped:
    they all appear in the output, in their input order. *)
Theorem dedup_keeps_unidentified (l : list contact) :
  filter (λ c, identity_key_of c = KNone) (_deduplicate_contacts l)
  = filter (λ c, identity_key_of c = KNone) l.
Proof. apply dedup_loop_keeps_unidentified. Qed.

Lemma usable_truthy k : truthy (usable k) = truthy k.
Proof. unfold usable. by destruct (truthy k) eqn:Hk. Qed.

Lemma usable_seen_in k s : seen_in (usable k) s = seen_in k s.
Proof.
  unfold usable. destruct (truthy k) eqn:Hk; [done|].
  destruct k as [v|]; [|done]. simpl in *. by rewrite Hk.
Qed.

Lemma usable_add_if k s : add_if (usable k) s = add_if k s.
Proof.
  unfold usable. destruct (truthy k) eqn:Hk; [done|].
  destruct k as [v|]; [|done]. simpl in *. by rewrite Hk.
Qed.

Lemma dedup_email_forget c :
  dedup_email (forget_unusable c) = usable (dedup_email c).
Proof.
  unfold dedup_email at 1. simpl.
  destruct (usable (dedup_email c)) as [e|] eqn:Hu; [|done].
  unfold usable in Hu. destruct (truthy (dedup_email c)); [|done].
  unfold dedup_email in Hu. destruct (email c) as [e'|]; [|done].
  case_bool_decide as Hp; [done|]. injection Hu as <-.
  by rewrite bool_decide_eq_false_2.
Qed.

Lemma is_duplicate_forget s c :
  is_duplicate s (forget_unusable c) = is_duplicate s c.
Proof.
  unfold is_duplicate. rewrite dedup_email_forget. simpl.
  by rewrite !usable_seen_in.
Qed.

Lemma add_seen_forget s c : add_seen s (forget_unusable c) = add_seen s c.
Proof.
  unfold add_seen. rewrite dedup_email_forget. simpl.
  by rewrite !usable_add_if.
Qed.

Lemma dedup_loop_forget s l :
  dedup_loop s [] (forget_unusable <$> l) = forget_unusable <$> dedup_loop s [] l.
Proof.
  revert s. induction l as [|c l IH]; intros s; [done|].
  rewrite fmap_cons, !dedup_loop_cons, is_duplicate_forget, add_seen_forget.
  destruct (is_duplicate s c); [apply IH|]. by rewrite IH.
Qed.

(** X6.  A placeholder email and an empty-string email, profile URL or
    id have exactly the effect of a missing field: blanking them in
    every input record leaves the same records retained. *)
Theorem dedup_unusable_fields_ignored (l : list contact) :
  _deduplicate_contacts (forget_unusable <$> l)
  = forget_unusable <$> _deduplicate_contacts l.
Proof. apply dedup_loop_forget. Qed.

(** ** Further properties of the controller *)

Lemma elem_of_companies_of contacts x :
  x ∈ companies_of contacts ↔
  x ≠ "" ∧ ∃ c, c ∈ contacts ∧ company c = Some x.
Proof.
  unfold companies_of. rewrite elem_of_elements, elem_of_list_to_set.
  rewrite list_elem_of_omap. split.
  - intros (c & Hc & Hx). destruct (truthy (company c)) eqn:Ht; [|done].
    rewrite Hx in Ht. apply truthy_Some in Ht. eauto.
  - intros (Hx & c & Hc & Hco). exists c. split; [done|].
    rewrite Hco. by rewrite (proj2 (truthy_Some x) Hx).
Qed.

Lemma companies_of_nil : companies_of [] = [].
Proof. unfold companies_of. simpl. apply elements_empty. Qed.

Lemma omap_length_le {A B} (f : A → option B) (l : list A) :
  (length (omap f l) ≤ length l)%nat.
Proof.
  induction l as [|x l IH]; simpl; [lia|].
  change (list_omap A B f l) with (omap f l). destruct (f x); simpl; lia.
Qed.

Lemma companies_of_length contacts :
  (length (companies_of contacts) ≤ length contacts)%nat.
Proof.
  unfold companies_of.
  set (names := omap _ contacts).
  assert (length names ≤ length contacts)%nat as Hn by apply omap_length_le.
  assert (elements (list_to_set (C := gset string) names) ⊆+ names) as Hs.
  { apply NoDup_submseteq; [apply NoDup_elements|].
    intros x. by rewrite elem_of_elements, elem_of_list_to_set. }
  apply submseteq_length in Hs. lia.
Qed.

Section controller_extras.
Context {W : Type} (sv : services W) (a : Args).

Lemma execute_apollo_search_spec (e : env W) q cap :
  ∃ w contacts,
    _execute_apollo_search sv e q cap =
      ({| world := w; calls := calls e ++ [CallApollo q cap] |},
       (contacts, companies_of contacts)).
Proof.
  unfold _execute_apollo_search, apollo_call.
  destruct (search_people sv (world e) q cap) as [w [ex|contacts]].
  - exists w, []. by rewrite companies_of_nil.
  - by exists w, contacts.
Qed.

(** X7.  The companies the search executor returns are the distinct
    non-empty company names of the contacts it returns, and there are
    at most as many as contacts; a failed search returns none of
    either. *)
Theorem executor_companies (e : env W) (q : QueryParams) (cap : Z) :
  let out := (_execute_apollo_search sv e q cap).2 in
  NoDup out.2 ∧
  (∀ x, x ∈ out.2 ↔ x ≠ "" ∧ ∃ c, c ∈ out.1 ∧ company c = Some x) ∧
  (length out.2 ≤ length out.1)%nat ∧
  (∀ ex, (search_people sv (world e) q cap).2 = inl ex → out = ([], [])).
Proof.
  intros out. unfold out.
  destruct (execute_apollo_search_spec e q cap) as (w & contacts & Hex).
  split; [|split; [|split]].
  - rewrite Hex. simpl. unfold companies_of. apply NoDup_elements.
  - rewrite Hex. simpl. apply elem_of_companies_of.
  - rewrite Hex. simpl. apply companies_of_length.
  - intros ex Hfail. unfold _execute_apollo_search, apollo_call.
    destruct (search_people sv (world e) q cap) as [w' [ex'|cs]]; [done|].
    by simpl in Hfail.
Qed.

Lemma learn_and_expand_calls (e : env W) u d cs h :
  calls (_learn_and_expand sv e u d cs h).1
  = calls e ++ [CallClaude (PromptExpand u d (take 5 cs) h)].
Proof.
  unfold _learn_and_expand.
  pose proof (claude_call_calls sv e (PromptExpand u d (take 5 cs) h)) as Hc.
  destruct (claude_call sv e _) as [e1 [ex|text]]; [done|].
  by destruct (json_loads sv text).
Qed.

Lemma refine_failed_search_calls (e : env W) q h u d :
  calls (_refine_failed_search sv e q h u d).1
  = calls e ++ [CallClaude (PromptRefine u d q h)].
Proof.
  unfold _refine_failed_search.
  pose proof (claude_call_calls sv e (PromptRefine u d q h)) as Hc.
  destruct (claude_call sv e _) as [e1 [ex|text]]; [done|].
  by destruct (json_loads sv text).
Qed.

(** One turn of the loop, in full. *)
Lemma loop_step_full st st' :
  loop_step sv a st = Some st' →
  ∃ q w contacts e2 extra,
    search_queries st !! next_index st = Some q ∧
    Z.of_nat (length (all_contacts st)) < min_results a ∧
    let e1 := {| world := w;
                 calls := calls (st_env st)
                            ++ [CallApollo q (max_results_per_query a)] |} in
    let h' := search_history st ++
                [ {| h_iteration := iteration st + 1;
                     h_query_params := q;
                     h_results_count := length contacts;
                     h_companies_found := length (companies_of contacts) |} ] in
    st' = {| st_env := e2;
             search_queries := search_queries st ++ extra;
             next_index := S (next_index st);
             all_contacts := all_contacts st ++ contacts;
             all_companies :=
               all_companies st ∪ list_to_set (companies_of contacts);
             search_history := h';
             iteration := iteration st + 1 |} ∧
    ((e2 = e1 ∧ extra = []) ∨
     (iteration st + 1 < max_iterations a ∧
      ((e2, extra) = _learn_and_expand sv e1 (user_query a)
                       (product_description a) contacts h' ∨
       (e2, extra) = _refine_failed_search sv e1 q h' (user_query a)
                       (product_description a)))).
Proof.
  unfold loop_step.
  destruct (search_queries st !! next_index st) as [q|] eqn:Hq; [|done].
  case_bool_decide as Hmin; [done|]. intros [= <-].
  destruct (execute_apollo_search_spec (st_env st) q (max_results_per_query a))
    as (w & contacts & Hex).
  unfold loop_body. rewrite Hex.
  exists q, w, contacts.
  destruct contacts as [|c contacts].
  - rewrite companies_of_nil. simpl. case_bool_decide as Hit.
    + destruct (_refine_failed_search _ _ _ _ _ _) as [e2 refined] eqn:Href.
      exists e2, refined. split; [done|]. split; [lia|]. split.
      * by rewrite app_nil_r, (right_id_L ∅ (∪)).
      * right. split; [done|]. by right.
    + eexists _, []. split; [done|]. split; [lia|]. split.
      * by rewrite !app_nil_r, (right_id_L ∅ (∪)).
      * by left.
  - destruct (bool_decide _ && bool_decide _) eqn:Hc.
    + apply andb_true_iff in Hc as [_ Hit%bool_decide_eq_true].
      destruct (_learn_and_expand _ _ _ _ _ _) as [e2 expansion] eqn:Hexp.
      exists e2, expansion. split; [done|]. split; [lia|]. split; [done|].
      right. split; [done|]. by left.
    + eexists _, []. split; [done|]. split; [lia|]. split.
      * by rewrite app_nil_r.
      * by left.
Qed.
Lemma results_total_snoc h entry :
  results_total (h ++ [entry]) = (results_total h + h_results_count entry)%nat.
Proof.
  unfold results_total. rewrite fmap_app, sum_list_with_app. simpl. lia.
Qed.

Lemma bookkeeping_initial (e1 : env W) seed :
  bookkeeping_invariant a e1 (initial_state e1 seed).
Proof.
  unfold bookkeeping_invariant, executed. simpl. split; [|split; [|split; [|split]]].
  - exists []. rewrite app_nil_r. repeat split; try done; simpl; lia.
  - done.
  - done.
  - intros k Hk. lia.
  - intros x. split; [set_solver|]. intros (_ & c & Hc & _). by apply elem_of_nil in Hc.
Qed.

Lemma bookkeeping_step (e1 : env W) st st' :
  loop_invariant st → bookkeeping_invariant a e1 st →
  loop_step sv a st = Some st' → bookkeeping_invariant a e1 st'.
Proof.
  intros (Hex & Hle & Hlen & Hit)
         ((added & Hcalls & Hap & Hcl & Hbudget) & Hnum & Htot & Hpre & Hco) Hs.
  destruct (loop_step_full _ _ Hs)
    as (q & w & contacts & e2 & extra & Hq & Hmin & Hst & Hplan).
  simpl in Hst, Hplan. subst st'.
  unfold bookkeeping_invariant, executed.
  cbn [st_env search_queries next_index all_contacts all_companies
       search_history iteration].
  split; [|split; [|split; [|split]]].
  - destruct Hplan as [[-> ->]|[Hlt Hplan]].
    + exists (added ++ [CallApollo q (max_results_per_query a)]). simpl.
      rewrite Hcalls, <- app_assoc. split; [done|].
      unfold apollo_calls, claude_calls in *. rewrite !omap_app, !fmap_app. simpl.
      rewrite app_nil_r. unfold executed in Hap. rewrite Hap.
      repeat split; try done; lia.
    + assert (∃ p, calls e2 = (calls (st_env st)
                ++ [CallApollo q (max_results_per_query a)]) ++ [CallClaude p])
        as [p Hp].
      { destruct Hplan as [Hp|Hp]; apply (f_equal fst) in Hp; simpl in Hp; subst e2.
        - rewrite learn_and_expand_calls. by eexists.
        - rewrite refine_failed_search_calls. by eexists. }
      exists (added ++ [CallApollo q (max_results_per_query a); CallClaude p]).
      rewrite Hp, Hcalls, <- !app_assoc. split; [done|].
      unfold apollo_calls, claude_calls in *. rewrite !omap_app, !fmap_app. simpl.
      unfold executed in Hap. rewrite Hap, length_app. simpl.
      repeat split; try done; lia.
  - rewrite fmap_app, Hnum, seq_S, fmap_app. simpl. do 3 f_equal. lia.
  - rewrite results_total_snoc, length_app, Htot. done.
  - rewrite length_app. simpl. intros k Hk.
    destruct (decide (k < length (search_history st))%nat) as [Hk'|Hk'].
    + rewrite take_app_le by lia. by apply Hpre.
    + assert (k = length (search_history st)) as -> by lia.
      rewrite take_app_length, Htot. done.
  - intros x. rewrite elem_of_union, elem_of_list_to_set, elem_of_companies_of, Hco.
    setoid_rewrite elem_of_app. naive_solver.
Qed.

Lemma run_loop_facts (e1 : env W) seed :
  let st := run_loop sv a (initial_state e1 seed) in
  loop_invariant st ∧ bookkeeping_invariant a e1 st ∧ loop_step sv a st = None.
Proof.
  intros st.
  assert (loop_invariant st ∧ bookkeeping_invariant a e1 st) as [? ?].
  { apply (run_loop_invariant sv a
             (λ s, loop_invariant s ∧ bookkeeping_invariant a e1 s)).
    - intros s s' [Hi Hb] Hs. split.
      + by eapply loop_invariant_step.
      + by eapply bookkeeping_step.
    - split; [apply loop_invariant_initial | apply bookkeeping_initial]. }
  split; [done|]. split; [done|]. apply run_loop_stops.
Qed.

(** The run unfolded: the seeding call, then the loop. *)
Lemma run_agentic_search_cases (e : env W) :
  ∃ e1 g,
    _generate_search_queries sv e (user_query a) (product_description a) = (e1, g) ∧
    calls e1 = calls e ++
      [CallClaude (PromptGenerate (user_query a) (product_description a))] ∧
    match g with
    | inl ex => run_agentic_search sv a e = (e1, inl ex)
    | inr seed =>
        run_agentic_search sv a e =
          (st_env (run_loop sv a (initial_state e1 seed)),
           inr (final_result (run_loop sv a (initial_state e1 seed))))
    end.
Proof.
  unfold run_agentic_search.
  destruct (_generate_search_queries sv e _ _) as [e1 g] eqn:Hg.
  exists e1, g. split; [done|]. split; [|by destruct g].
  unfold _generate_search_queries in Hg.
  pose proof (claude_call_calls sv e
    (PromptGenerate (user_query a) (product_description a))) as Hcc.
  destruct (claude_call sv e _) as [e' [ex|text]]; simpl in Hcc.
  - by injection Hg as <- _.
  - destruct (json_loads sv text); by injection Hg as <- _.
Qed.
End controller_extras.

Section controller_extra_claims.
Context {W : Type} (sv : services W) (a : Args).

(** X8.  When the seed the planner returned is a list of query
    dictionaries (as are, in this model, its later answers), the trace
    of the run starts with the seeding call, and the provider is then
    called exactly once per history entry, for the specs of the history
    in their order, each time with [per_page = max_results_per_query]. *)
Theorem provider_called_once_per_round (e e1 : env W)
    (seed : list QueryParams) :
  _generate_search_queries sv e (user_query a) (product_description a)
    = (e1, inr seed) →
  ∃ e2 r added,
    run_agentic_search sv a e = (e2, inr r) ∧
    calls e2
      = calls e ++
        CallClaude (PromptGenerate (user_query a) (product_description a))
          :: added ∧
    apollo_calls added
      = (λ q, (q, max_results_per_query a))
          <$> (h_query_params <$> res_search_history r).
Proof.
  intros Hg.
  destruct (run_agentic_search_cases sv a e) as (e1' & g & Hg' & Hc & Hrun).
  rewrite Hg in Hg'. injection Hg' as <- <-.
  destruct (run_loop_facts sv a e1 seed)
    as (_ & ((added & Hcalls & Hap & _) & _) & _).
  eexists _, _, added. split; [exact Hrun|].
  rewrite Hcalls, Hc, <- app_assoc. by split.
Qed.

(** X9.  A run calls the planner at most [max(1, max_iterations)]
    times: once for the seed, and after a round only while the round
    counter is below [max_iterations]. *)
Theorem planner_call_budget (e : env W) :
  ∃ added,
    calls (run_agentic_search sv a e).1 = calls e ++ added ∧
    Z.of_nat (length (claude_calls added)) ≤ Z.max 1 (max_iterations a).
Proof.
  destruct (run_agentic_search_cases sv a e) as (e1 & g & _ & Hc & Hrun).
  destruct g as [ex|seed]; rewrite Hrun; simpl.
  - eexists. split; [exact Hc|]. simpl. lia.
  - destruct (run_loop_facts sv a e1 seed)
      as (_ & ((added & Hcalls & _ & _ & Hbudget) & _) & _).
    exists (CallClaude (PromptGenerate (user_query a) (product_description a))
              :: added).
    rewrite Hcalls, Hc, <- app_assoc. split; [done|].
    change (claude_calls (CallClaude ?p :: added)) with (p :: claude_calls added).
    simpl length. lia.
Qed.

(** X10.  The returned bookkeeping is consistent: the history entries
    are numbered 1, 2, ... without gap, [iterations] and
    [queries_executed] are the length of the history, the two totals
    are the lengths of the returned lists, and the returned contacts
    number at most the sum of the [results_count] entries. *)
Theorem history_and_stats_consistent (e : env W) :
  match (run_agentic_search sv a e).2 with
  | inl _ => True
  | inr r =>
      let n := length (res_search_history r) in
      h_iteration <$> res_search_history r = Z.of_nat <$> seq 1 n ∧
      res_iterations r = Z.of_nat n ∧
      queries_executed (res_stats r) = n ∧
      total_contacts (res_stats r) = length (res_contacts r) ∧
      total_companies (res_stats r) = length (res_companies r) ∧
      (length (res_contacts r) ≤ results_total (res_search_history r))%nat
  end.
Proof.
  destruct (run_agentic_search_cases sv a e) as (e1 & g & _ & _ & Hrun).
  destruct g as [ex|seed]; rewrite Hrun; simpl; [done|].
  destruct (run_loop_facts sv a e1 seed)
    as ((_ & _ & Hlen & Hit) & (_ & Hnum & Htot & _) & _).
  rewrite Hlen, Htot. repeat split; try done.
  apply sublist_length, dedup_loop_sublist.
Qed.

(** X11.  A round is executed only while fewer than [min_results]
    contacts, duplicates included, have been collected; and the loop
    ends only when every queued spec has been executed or that count
    has reached [min_results]. *)
Theorem rounds_only_while_short (e1 : env W) (seed : list QueryParams) :
  let st := run_loop sv a (initial_state e1 seed) in
  (∀ k, (k < length (search_history st))%nat →
        Z.of_nat (results_total (take k (search_history st))) < min_results a) ∧
  (executed st = search_queries st ∨
   min_results a ≤ Z.of_nat (results_total (search_history st))).
Proof.
  intros st.
  destruct (run_loop_facts sv a e1 seed)
    as ((Hex & _) & (_ & _ & Htot & Hpre & _) & Hstop).
  fold st in Hex, Htot, Hpre, Hstop. split; [done|].
  unfold loop_step in Hstop.
  destruct (search_queries st !! next_index st) eqn:Hl.
  - right. case_bool_decide; [|done]. by rewrite Htot.
  - left. apply lookup_ge_None in Hl. rewrite Hex. by apply take_ge.
Qed.

(** X12.  The returned companies are pairwise distinct and non-empty,
    and they include the company of every returned contact that has
    one. *)
Theorem result_companies_cover_contacts (e : env W) :
  match (run_agentic_search sv a e).2 with
  | inl _ => True
  | inr r =>
      NoDup (res_companies r) ∧
      (∀ x, x ∈ res_companies r → x ≠ "") ∧
      (∀ c x, c ∈ res_contacts r → company c = Some x → x ≠ "" →
              x ∈ res_companies r)
  end.
Proof.
  destruct (run_agentic_search_cases sv a e) as (e1 & g & _ & _ & Hrun).
  destruct g as [ex|seed]; rewrite Hrun; simpl; [done|].
  destruct (run_loop_facts sv a e1 seed) as (_ & (_ & _ & _ & _ & Hco) & _).
  split; [apply NoDup_elements|]. split.
  - intros x Hx%elem_of_elements. by apply Hco in Hx as [? _].
  - intros c x Hc Hx Hne. apply elem_of_elements, Hco. split; [done|].
    exists c. split; [|done]. eapply elem_of_sublist; [exact Hc|].
    apply dedup_loop_sublist.
Qed.

Lemma queue_length_bound (e1 : env W) seed (K : nat) :
  (∀ e u d cs h, (length (_learn_and_expand sv e u d cs h).2 ≤ K)%nat) →
  (∀ e q h u d, (length (_refine_failed_search sv e q h u d).2 ≤ K)%nat) →
  let st := run_loop sv a (initial_state e1 seed) in
  (length (search_queries st)
   ≤ length seed + K * Z.to_nat (max_iterations a - 1))%nat.
Proof.
  intros Hexp Href st.
  set (M := Z.to_nat (max_iterations a - 1)).
  assert (loop_invariant st ∧
          (length (search_queries st)
           ≤ length seed + K * (next_index st `min` M))%nat) as [_ Hb].
  { apply (run_loop_invariant sv a
      (λ s, loop_invariant s ∧
            (length (search_queries s)
             ≤ length seed + K * (next_index s `min` M))%nat)).
    - intros s s' [Hi Hb] Hs. split; [by eapply loop_invariant_step|].
      destruct Hi as (_ & _ & _ & Hit).
      destruct (loop_step_full sv a _ _ Hs)
        as (q & w & contacts & e2 & extra & _ & _ & Hst & Hplan).
      simpl in Hst, Hplan. subst s'. cbn [search_queries next_index].
      rewrite length_app.
      destruct Hplan as [[_ ->]|[Hlt Hplan]].
      + cbn [length].
        assert (next_index s `min` M ≤ S (next_index s) `min` M)%nat by lia.
        nia.
      + assert (length extra ≤ K)%nat as Hk.
        { destruct Hplan as [Hp|Hp]; apply (f_equal snd) in Hp; simpl in Hp;
            subst extra; [apply Hexp | apply Href]. }
        assert (next_index s `min` M = next_index s)%nat as H1 by (unfold M; lia).
        assert (S (next_index s) `min` M = S (next_index s))%nat as H2
          by (unfold M; lia).
        rewrite H1 in Hb. rewrite H2. nia.
    - split; [apply loop_invariant_initial|]. simpl. lia. }
  assert (next_index st `min` M ≤ M)%nat by lia. nia.
Qed.

(** X13.  When every planner answer after the seed holds at most [K]
    queries, a run executes at most
    [len(seed) + K * max(0, max_iterations - 1)] rounds; in particular
    at most [len(seed)] rounds when [max_iterations <= 1]. *)
Theorem rounds_bounded_by_planner_output (e e1 : env W)
    (seed : list QueryParams) (K : nat) :
  _generate_search_queries sv e (user_query a) (product_description a)
    = (e1, inr seed) →
  (∀ e' u d cs h, (length (_learn_and_expand sv e' u d cs h).2 ≤ K)%nat) →
  (∀ e' q h u d, (length (_refine_failed_search sv e' q h u d).2 ≤ K)%nat) →
  ∃ e2 r,
    run_agentic_search sv a e = (e2, inr r) ∧
    (length (res_search_history r)
     ≤ length seed + K * Z.to_nat (max_iterations a - 1))%nat.
Proof.
  intros Hg Hexp Href. unfold run_agentic_search. rewrite Hg.
  eexists _, _. split; [done|]. simpl.
  pose proof (queue_length_bound e1 seed K Hexp Href) as Hb. simpl in Hb.
  destruct (run_loop_facts sv a e1 seed) as ((_ & Hle & Hlen & _) & _ & _).
  lia.
Qed.

(** X14.  When the planner's seeding answer cannot be parsed and
    [min_results] is positive, the run still searches: its first round
    executes the built-in fallback query. *)
Theorem unparsable_seed_falls_back (e : env W) (w : W) (text : string) :
  messages_create sv (world e)
    (PromptGenerate (user_query a) (product_description a)) = (w, inr text) →
  json_loads sv text = None →
  0 < min_results a →
  ∃ e2 r entry rest,
    run_agentic_search sv a e = (e2, inr r) ∧
    res_search_history r = entry :: rest ∧
    h_query_params entry = fallback_query ∧
    h_iteration entry = 1.
Proof.
  intros Hm Hj Hmin. unfold run_agentic_search, _generate_search_queries,
    claude_call. rewrite Hm, Hj.
  set (e1 := {| world := w; calls := _ |}).
  set (st0 := initial_state e1 [fallback_query]).
  destruct (loop_step sv a st0) as [st1|] eqn:Hs.
  2:{ unfold loop_step in Hs. simpl in Hs.
      rewrite bool_decide_eq_false_2 in Hs by lia. done. }
  destruct (loop_step_spec sv a _ _ Hs)
    as (q & extra & entry & cs & Hq & _ & _ & _ & _ & _ & Hh & Hqe & Hie & _).
  simpl in Hq, Hh, Hie. injection Hq as <-.
  assert (∃ rest, search_history (run_loop sv a st0) = entry :: rest)
    as [rest Hrest].
  { rewrite run_loop_eq, Hs.
    apply (run_loop_invariant sv a (λ s, ∃ rest, search_history s = entry :: rest)).
    - intros s s' [rest Hr] Hs'.
      destruct (loop_step_spec sv a _ _ Hs')
        as (_ & _ & entry' & _ & _ & _ & _ & _ & _ & _ & Hh' & _).
      exists (rest ++ [entry']). by rewrite Hh', Hr.
    - by exists []. }
  eexists _, _, entry, rest. split; [done|]. by split.
Qed.
End controller_extra_claims.

Lemma rounds_bounded_by_planner_output_witness :
  let q := query_titled "CEO" in
  let sv := scripted [q] [query_titled "CTO"]
              [query_titled "Founder"; query_titled "Owner"] (inr []) in
  let a := default_args "find leads" in
  let e1 := (_generate_search_queries sv env0 (user_query a) (product_description a)).1 in
  _generate_search_queries sv env0 (user_query a) (product_description a)
    = (e1, inr [q]) ∧
  (∀ e' u d cs h, (length (_learn_and_expand sv e' u d cs h).2 ≤ 2)%nat) ∧
  (∀ e' q' h u d, (length (_refine_failed_search sv e' q' h u d).2 ≤ 2)%nat) ∧
  ∃ e2 r,
    run_agentic_search sv a env0 = (e2, inr r) ∧
    (length (res_search_history r)
     ≤ length [q] + 2 * Z.to_nat (max_iterations a - 1))%nat.
Proof.
  intros q sv a e1.
  assert (_generate_search_queries sv env0 (user_query a) (product_description a)
          = (e1, inr [q])) as Hg by reflexivity.
  assert (∀ e' u d cs h, (length (_learn_and_expand sv e' u d cs h).2 ≤ 2)%nat)
    as Hexp by (intros; simpl; lia).
  assert (∀ e' q' h u d, (length (_refine_failed_search sv e' q' h u d).2 ≤ 2)%nat)
    as Href by (intros; simpl; lia).
  do 3 (split; [assumption|]).
  exact (rounds_bounded_by_planner_output sv a env0 e1 [q] 2 Hg Hexp Href).
Defined.

Lemma unparsable_seed_falls_back_witness :
  let sv := {| messages_create := λ (w : unit) (_ : prompt),
                 (w, @inr exn string "Sure! Here are some queries.");
               json_loads := λ _, None;
               search_people := λ w _ _, (w, inr []) |} in
  let a := default_args "find leads" in
  messages_create sv (world env0)
    (PromptGenerate (user_query a) (product_description a))
    = ((), inr "Sure! Here are some queries.") ∧
  json_loads sv "Sure! Here are some queries." = None ∧
  0 < min_results a ∧
  ∃ e2 r entry rest,
    run_agentic_search sv a env0 = (e2, inr r) ∧
    res_search_history r = entry :: rest ∧
    h_query_params entry = fallback_query ∧
    h_iteration entry = 1.
Proof.
  intros sv a.
  assert (messages_create sv (world env0)
            (PromptGenerate (user_query a) (product_description a))
          = ((), inr "Sure! Here are some queries.")) as Hm by reflexivity.
  assert (json_loads sv "Sure! Here are some queries." = None) as Hj
    by reflexivity.
  assert (0 < min_results a) as Hmin by (by vm_compute).
  do 3 (split; [assumption|]).
  exact (unparsable_seed_falls_back sv a env0 () _ Hm Hj Hmin).
Defined.

(** ** The caller's arguments *)

(** X15.  The bounds the chat endpoint passes: three iterations, a
    target of at most 10 results which is at most half the requested
    maximum, a per-query cap of at most 25; the target is 10 from 20
    requested contacts on, does not exceed the per-query cap for a
    non-negative request, and is non-positive exactly when at most one
    contact is requested. *)
Theorem chat_search_args_bounds (message : string)
    (product : option string) (max_contacts : Z) :
  let a := chat_search_args message product max_contacts in
  max_iterations a = 3 ∧
  min_results a ≤ 10 ∧
  2 * min_results a ≤ max_contacts ∧
  max_results_per_query a ≤ 25 ∧
  max_results_per_query a ≤ max_contacts ∧
  (20 ≤ max_contacts → min_results a = 10) ∧
  (0 ≤ max_contacts → min_results a ≤ max_results_per_query a) ∧
  (min_results a ≤ 0 ↔ max_contacts ≤ 1).
Proof.
  intros a. unfold a, chat_search_args.
  cbn [max_iterations min_results max_results_per_query].
  pose proof (Z.div_mod (Z.min max_contacts 100) 2 ltac:(lia)) as Hdm.
  pose proof (Z.mod_pos_bound (Z.min max_contacts 100) 2 ltac:(lia)) as Hmod.
  repeat split; lia.
Qed.

Lemma run_loop_no_round {W : Type} (sv : services W) (a : Args)
    (e1 : env W) seed :
  min_results a ≤ 0 →
  run_loop sv a (initial_state e1 seed) = initial_state e1 seed.
Proof.
  intros Hmin. rewrite run_loop_eq.
  assert (loop_step sv a (initial_state e1 seed) = None) as ->; [|done].
  unfold loop_step. destruct (_ !! _); [|done].
  rewrite bool_decide_eq_true_2; [done|]. simpl. lia.
Qed.

(** X16.  A chat request for at most one contact makes the agentic
    search useless: the planner is asked for seed queries, and when its
    answer is unparsable or parses to a list of query dictionaries, no
    round is executed: the seeding call is the only external call, the
    provider is never called and the result is empty. *)
Theorem chat_tiny_request_searches_nothing {W : Type} (sv : services W)
    (message : string) (product : option string) (max_contacts : Z)
    (e e1 : env W) (seed : list QueryParams) :
  max_contacts ≤ 1 →
  let a := chat_search_args message product max_contacts in
  _generate_search_queries sv e (user_query a) (product_description a)
    = (e1, inr seed) →
  calls e1 = calls e ++
    [CallClaude (PromptGenerate (user_query a) (product_description a))] ∧
  run_agentic_search sv a e = (e1, inr empty_result).
Proof.
  intros Hmc a Hg.
  assert (min_results a ≤ 0) as Hmin.
  { unfold a, chat_search_args. cbn [min_results].
    pose proof (Z.div_mod (Z.min max_contacts 100) 2 ltac:(lia)) as Hdm.
    pose proof (Z.mod_pos_bound (Z.min max_contacts 100) 2 ltac:(lia)) as Hmod.
    lia. }
  destruct (run_agentic_search_cases sv a e) as (e1' & g & Hg' & Hc & Hrun).
  rewrite Hg in Hg'. injection Hg' as <- <-. split; [done|].
  rewrite Hrun, (run_loop_no_round sv a e1 seed Hmin).
  by rewrite final_result_initial.
Qed.

Lemma chat_tiny_request_searches_nothing_witness :
  let seed := [query_titled "CEO"] in
  let sv := scripted seed [] [] (inr []) in
  let a := chat_search_args "find one lead" None 1 in
  let e1 := (_generate_search_queries sv env0 (user_query a) (product_description a)).1 in
  1 ≤ 1 ∧
  _generate_search_queries sv env0 (user_query a) (product_description a)
    = (e1, inr seed) ∧
  calls e1 = calls env0 ++
    [CallClaude (PromptGenerate (user_query a) (product_description a))] ∧
  run_agentic_search sv a env0 = (e1, inr empty_result).
Proof.
  intros seed sv a e1.
  assert (_generate_search_queries sv env0 (user_query a) (product_description a)
          = (e1, inr seed)) as Hg by reflexivity.
  split; [lia|]. split; [assumption|].
  exact (chat_tiny_request_searches_nothing sv "find one lead" None 1 env0 e1
           seed (ltac:(lia)) Hg).
Defined.

(** ** The request [search_people] posts *)

Lemma lookup_set_if_ne cond k k' v (m : gmap string pyval) :
  k' ≠ k → set_if cond k' v m !! k = m !! k.
Proof.
  intros Hne. unfold set_if. destruct cond; [|done]. by rewrite lookup_insert_ne.
Qed.

Lemma lookup_set_if_eq cond k v (m : gmap string pyval) :
  set_if cond k v m !! k = if cond then Some v else m !! k.
Proof. unfold set_if. destruct cond; [|done]. by rewrite lookup_insert_eq. Qed.

(** X17.  In the payload of [search_people], whatever the filters:
    every entry of [kwargs] is sent as it is, overriding the entry a
    named filter made under the same key; unless [kwargs] overrides
    them, [page] is sent as given and [per_page] is capped at 100; and
    two or more company names are sent as a null organization name. *)
Theorem search_people_payload_entries (query : option string)
    (titles locations seniorities company_names industries employee_ranges
       : option (list string))
    (page per_page : Z) (kwargs : gmap string pyval) :
  let payload := search_people_payload query titles locations seniorities
                   company_names industries employee_ranges page per_page
                   kwargs in
  (∀ k v, kwargs !! k = Some v → payload !! k = Some v) ∧
  (kwargs !! "page" = None → payload !! "page" = Some (PyInt page)) ∧
  (kwargs !! "per_page" = None →
   ∃ n, payload !! "per_page" = Some (PyInt n) ∧ n ≤ 100 ∧ n ≤ per_page) ∧
  (kwargs !! "q_organization_name" = None →
   payload !! "q_organization_name" =
     match company_names with
     | None | Some [] => None
     | Some [only] => Some (PyStr only)
     | Some (_ :: _ :: _) => Some PyNone
     end).
Proof.
  intros payload. unfold payload, search_people_payload.
  split; [|split; [|split]].
  - intros k v Hk. by apply lookup_union_Some_l.
  - intros Hk. rewrite lookup_union_r by done.
    rewrite !lookup_set_if_ne by done.
    rewrite lookup_insert_ne by done. by rewrite lookup_insert_eq.
  - intros Hk. rewrite lookup_union_r by done.
    rewrite !lookup_set_if_ne by done.
    rewrite lookup_insert_eq. eexists. split; [done|]. lia.
  - intros Hk. rewrite lookup_union_r by done.
    rewrite !(lookup_set_if_ne _ "q_organization_name") by done.
    rewrite lookup_set_if_eq.
    rewrite !lookup_set_if_ne by done.
    rewrite !lookup_insert_ne by done. rewrite lookup_empty.
    by destruct company_names as [[|? [|? ?]]|].
Qed.

(** X18.  The request [_execute_apollo_search] causes: first page,
    [per_page] the smaller of the cap and 100, the titles under
    [person_titles] only when there are some, and the planner's
    keywords, seniorities and size ranges under the keys [keywords],
    [person_seniorities] and [organization_num_employees_ranges], as
    null when the planner left them out.  Nothing is sent under
    [q_keywords], and there is no other entry. *)
Theorem agentic_search_payload_entries (q : QueryParams) (max_results : Z) :
  let payload := agentic_search_payload q max_results in
  payload !! "page" = Some (PyInt 1) ∧
  payload !! "per_page" = Some (PyInt (Z.min max_results 100)) ∧
  payload !! "person_titles"
    = (if truthy_list (titles q) then Some (py_list (titles q)) else None) ∧
  payload !! "keywords" = Some (py_list (keywords q)) ∧
  payload !! "person_seniorities" = Some (py_list (person_seniorities q)) ∧
  payload !! "organization_num_employees_ranges"
    = Some (py_list (organization_num_employees_ranges q)) ∧
  payload !! "q_keywords" = None ∧
  dom payload =
    list_to_set
      (["page"; "per_page"; "keywords"; "person_seniorities";
        "organization_num_employees_ranges"]
       ++ (if truthy_list (titles q) then ["person_titles"] else [])).
Proof.
  intros payload. unfold payload, agentic_search_payload,
    search_people_payload, agentic_search_kwargs.
  destruct q as [ts ks ss rs rn]. cbn [titles keywords person_seniorities
    organization_num_employees_ranges truthy truthy_list set_if].
  destruct (truthy_list ts) eqn:Ht; cbn [set_if];
    do 7 (split; [by vm_compute|]);
    rewrite dom_union_L, !dom_insert_L, dom_empty_L;
    apply set_eq; intros k; cbn [app];
    rewrite !list_to_set_cons, list_to_set_nil; set_solver.
Qed.

(** ** Further properties of a run *)

Section controller_more_claims.
Context {W : Type} (sv : services W) (a : Args).

(** X19.  When the planner's seeding answer parses to an empty list,
    nothing is searched, whatever the bounds: the provider is not
    called and the result is empty. *)
Theorem empty_seed_searches_nothing (e e1 : env W) :
  _generate_search_queries sv e (user_query a) (product_description a)
    = (e1, inr []) →
  run_agentic_search sv a e = (e1, inr empty_result) ∧
  calls e1 = calls e ++
    [CallClaude (PromptGenerate (user_query a) (product_description a))].
Proof.
  intros Hg.
  destruct (run_agentic_search_cases sv a e) as (e1' & g & Hg' & Hc & Hrun).
  rewrite Hg in Hg'. injection Hg' as <- <-. split; [|done].
  rewrite Hrun, run_loop_eq.
  assert (loop_step sv a (initial_state e1 []) = None) as -> by done.
  by rewrite final_result_initial.
Qed.

Lemma rounds_last n (st0 st : loop_state W) :
  rounds sv a (S n) st0 = Some st →
  ∃ s, rounds sv a n st0 = Some s ∧ loop_step sv a s = Some st.
Proof.
  revert st0. induction n as [|n IH]; intros st0.
  - simpl. destruct (loop_step sv a st0) as [s|] eqn:Hs; [|done].
    intros [= <-]. by exists st0.
  - intros Hr. change (rounds sv a (S (S n)) st0) with
      (match loop_step sv a st0 with
       | Some s => rounds sv a (S n) s
       | None => None
       end) in Hr.
    destruct (loop_step sv a st0) as [s1|] eqn:Hs; [|done].
    destruct (IH _ Hr) as (s & Hrs & Hstep). exists s. split; [|done].
    simpl. by rewrite Hs.
Qed.

Lemma loop_step_last_call st st' :
  loop_step sv a st = Some st' →
  min_results a ≤ Z.of_nat (length (all_contacts st')) →
  ∃ q, search_queries st !! next_index st = Some q ∧
       calls (st_env st')
       = calls (st_env st) ++ [CallApollo q (max_results_per_query a)].
Proof.
  unfold loop_step.
  destruct (search_queries st !! next_index st) as [q|]; [|done].
  case_bool_decide as Hmin; [done|]. intros [= <-] Hraw. exists q.
  split; [done|].
  destruct (execute_apollo_search_spec sv (st_env st) q (max_results_per_query a))
    as (w & contacts & Hex).
  unfold loop_body in *. rewrite Hex in *.
  destruct contacts as [|c contacts].
  - exfalso. case_bool_decide;
      [destruct (_refine_failed_search _ _ _ _ _ _)|]; simpl in Hraw; lia.
  - destruct (bool_decide (Z.of_nat (length (all_contacts st ++ c :: contacts))
                           < min_results a)) eqn:Hlt.
    + exfalso. apply bool_decide_eq_true in Hlt.
      destruct (_ && _); [destruct (_learn_and_expand _ _ _ _ _ _)|];
        simpl in Hraw; lia.
    + by simpl.
Qed.

(** X20.  The planner is not asked again once enough contacts are
    collected: when a run with a positive [min_results] ends with at
    least that many accumulated contacts, its last external call is the
    provider search for the last executed spec. *)
Theorem no_planner_call_after_target (e1 : env W) (seed : list QueryParams) :
  let st := run_loop sv a (initial_state e1 seed) in
  0 < min_results a →
  min_results a ≤ Z.of_nat (length (all_contacts st)) →
  ∃ before q,
    calls (st_env st)
      = before ++ [CallApollo q (max_results_per_query a)] ∧
    last (executed st) = Some q.
Proof.
  intros st Hpos Hraw.
  destruct (run_loop_rounds sv a (initial_state e1 seed)) as [n Hn].
  fold st in Hn. destruct n as [|n].
  { simpl in Hn. injection Hn as Hn. rewrite <- Hn in Hraw. simpl in Hraw. lia. }
  destruct (rounds_last _ _ _ Hn) as (s & Hrs & Hstep).
  destruct (loop_step_last_call _ _ Hstep Hraw) as (q & Hl & Hq).
  exists (calls (st_env s)), q. split; [done|].
  destruct (loop_step_spec sv a _ _ Hstep)
    as (q' & _ & entry & _ & Hl' & _ & _ & _ & _ & _ & Hh & Hqe & _).
  rewrite Hl in Hl'. injection Hl' as <-.
  unfold executed. rewrite Hh, fmap_app. simpl. rewrite Hqe.
  apply last_snoc.
Qed.
(** X21.  Every history entry records at most as many companies as
    contacts; a round without contacts records no company. *)
Theorem history_entry_counts (e1 : env W) (seed : list QueryParams) :
  Forall (λ entry, (h_companies_found entry ≤ h_results_count entry)%nat)
    (search_history (run_loop sv a (initial_state e1 seed))).
Proof.
  apply (run_loop_invariant sv a
    (λ s, Forall (λ entry, (h_companies_found entry ≤ h_results_count entry)%nat)
            (search_history s))).
  - intros s s' Hall Hs.
    destruct (loop_step_full sv a _ _ Hs)
      as (q & w & contacts & e2 & extra & _ & _ & Hst & _).
    simpl in Hst. subst s'. simpl. apply Forall_app. split; [done|].
    apply Forall_singleton. simpl. apply companies_of_length.
  - by apply Forall_nil.
Qed.
End controller_more_claims.

Lemma empty_seed_searches_nothing_witness :
  let sv := scripted [] [] [] (inr []) in
  let a := default_args "find leads" in
  let e1 := (_generate_search_queries sv env0 (user_query a) (product_description a)).1 in
  _generate_search_queries sv env0 (user_query a) (product_description a)
    = (e1, inr []) ∧
  run_agentic_search sv a env0 = (e1, inr empty_result) ∧
  calls e1 = calls env0 ++
    [CallClaude (PromptGenerate (user_query a) (product_description a))].
Proof.
  intros sv a e1.
  assert (_generate_search_queries sv env0 (user_query a) (product_description a)
          = (e1, inr [])) as Hg by reflexivity.
  split; [assumption|].
  exact (empty_seed_searches_nothing sv a env0 e1 Hg).
Defined.

Lemma no_planner_call_after_target_witness :
  let x := sample_contact (Some "p-1") (Some "ana@acme.io") None in
  let y := sample_contact (Some "p-2") (Some "bo@acme.io") None in
  let seed := [query_titled "CEO"; query_titled "CTO"] in
  let sv := scripted seed [query_titled "Founder"] [] (inr [x; y]) in
  let a := args_with 3 2 in
  let st := run_loop sv a (initial_state env0 seed) in
  0 < min_results a ∧
  min_results a ≤ Z.of_nat (length (all_contacts st)) ∧
  ∃ before q,
    calls (st_env st)
      = before ++ [CallApollo q (max_results_per_query a)] ∧
    last (executed st) = Some q.
Proof.
  intros x y seed sv a st.
  assert (st = loop_body sv a (initial_state env0 seed) (query_titled "CEO"))
    as Hst.
  { apply (run_loop_final sv a 1); [reflexivity | by vm_compute]. }
  assert (0 < min_results a) as Hpos by (by vm_compute).
  assert (min_results a ≤ Z.of_nat (length (all_contacts st))) as Hraw.
  { rewrite Hst. by vm_compute. }
  do 2 (split; [assumption|]).
  exact (no_planner_call_after_target sv a env0 seed Hpos Hraw).
Defined.

Lemma provider_called_once_per_round_witness :
  let seed := [query_titled "CEO"; query_titled "CTO"] in
  let sv := scripted seed [] [] (inr []) in
  let a := default_args "find leads" in
  let e1 := (_generate_search_queries sv env0 (user_query a) (product_description a)).1 in
  _generate_search_queries sv env0 (user_query a) (product_description a)
    = (e1, inr seed) ∧
  ∃ e2 r added,
    run_agentic_search sv a env0 = (e2, inr r) ∧
    calls e2
      = calls env0 ++
        CallClaude (PromptGenerate (user_query a) (product_description a))
          :: added ∧
    apollo_calls added
      = (λ q, (q, max_results_per_query a))
          <$> (h_query_params <$> res_search_history r).
Proof.
  intros seed sv a e1.
  assert (_generate_search_queries sv env0 (user_query a) (product_description a)
          = (e1, inr seed)) as Hg by reflexivity.
  split; [assumption|].
  exact (provider_called_once_per_round sv a env0 e1 seed Hg).
Defined.

(** ** The seed is executed first in, first out *)

Section fifo.
Context {W : Type} (sv : services W) (a : Args).

(** C8.  When no expansion and no refinement query is produced in a run,
    that is when the queue at the end of the run is still the seed, the
    specs of the returned history are the seed queries in seed order,
    numbered 1, 2, ...: the first [length history] of them, and all of
    them unless the run stopped because the contacts counted in the
    history had reached [min_results]. *)
Theorem fifo_seed_order (e e1 : env W) (seed : list QueryParams) :
  _generate_search_queries sv e (user_query a) (product_description a)
    = (e1, inr seed) →
  search_queries (run_loop sv a (initial_state e1 seed)) = seed →
  ∃ e2 r,
    run_agentic_search sv a e = (e2, inr r) ∧
    h_query_params <$> res_search_history r
      = take (length (res_search_history r)) seed ∧
    h_iteration <$> res_search_history r
      = Z.of_nat <$> seq 1 (length (res_search_history r)) ∧
    (h_query_params <$> res_search_history r = seed ∨
     min_results a ≤ Z.of_nat (results_total (res_search_history r))).
Proof.
  intros Hg Hq. unfold run_agentic_search. rewrite Hg.
  destruct (run_loop_facts sv a e1 seed)
    as ((Hex & Hle & Hlen & _) & (_ & Hnum & Htot & _) & Hstop).
  set (st := run_loop sv a (initial_state e1 seed)) in *.
  exists (st_env st), (final_result st). split; [done|].
  unfold executed in Hex.
  cbn [final_result res_search_history]. rewrite Hq in Hex, Hle.
  rewrite Hlen. do 2 (split; [done|]).
  unfold loop_step in Hstop. rewrite Hq in Hstop.
  destruct (seed !! next_index st) eqn:Hl.
  - right. rewrite Htot. by case_bool_decide.
  - left. apply lookup_ge_None in Hl. rewrite Hex. by apply take_ge.
Qed.
End fifo.

Lemma fifo_seed_order_witness :
  let seed := [query_titled "CEO"; query_titled "CTO"; query_titled "VP Sales"] in
  let sv := scripted seed [query_titled "Founder"] [query_titled "Owner"]
              (inr []) in
  let a := args_with 1 10 in
  let e1 := (_generate_search_queries sv env0 (user_query a) (product_description a)).1 in
  _generate_search_queries sv env0 (user_query a) (product_description a)
    = (e1, inr seed) ∧
  search_queries (run_loop sv a (initial_state e1 seed)) = seed ∧
  ∃ e2 r,
    run_agentic_search sv a env0 = (e2, inr r) ∧
    h_query_params <$> res_search_history r
      = take (length (res_search_history r)) seed ∧
    h_iteration <$> res_search_history r
      = Z.of_nat <$> seq 1 (length (res_search_history r)) ∧
    (h_query_params <$> res_search_history r = seed ∨
     min_results a ≤ Z.of_nat (results_total (res_search_history r))).
Proof.
  intros seed sv a e1.
  assert (_generate_search_queries sv env0 (user_query a) (product_description a)
          = (e1, inr seed)) as Hg by reflexivity.
  assert (search_queries (run_loop sv a (initial_state e1 seed)) = seed) as Hq.
  { rewrite (run_loop_final sv a 3 (initial_state e1 seed)
               (loop_body sv a (loop_body sv a (loop_body sv a
                  (initial_state e1 seed) (query_titled "CEO"))
                  (query_titled "CTO")) (query_titled "VP Sales")));
      [| reflexivity | by vm_compute].
    by vm_compute. }
  do 2 (split; [assumption|]).
  exact (fifo_seed_order sv a env0 e1 seed Hg Hq).
Defined.
